(** * The simulated volume backend of the OCF "simple" example

    A shallow embedding of [example/simple/src/volume.c]: two flat files,
    "cache" and "core", stand in for block devices; every request is served
    by one positioned read or write on the file and completed inline.

    The file is organised as follows.
    - [Posix]: the part of the operating system the backend calls
      ([access], [open], [ftruncate], [pread], [pwrite], [close]).
    - the C structures the backend touches and the program state (the
      globals of volume.c, the heap shared with the caller, the output);
    - the functions of volume.c, one definition each, in a state-and-failure
      monad ([None] stands for undefined behaviour of the C program);
    - the properties. *)

From Stdlib Require Import ZArith Lia.
From stdpp Require Import base option list list_numbers gmap strings fin_maps relations.

Local Open Scope Z_scope.

Abbreviation byte := Byte.byte.

(** ** Byte regions *)

(** [load l off n]: the [n] bytes of the region [l] from index [off] on;
    defined only when the window lies inside the region. *)
Definition load (l : list byte) (off n : Z) : option (list byte) :=
  if decide (0 ≤ off ∧ 0 ≤ n ∧ off + n ≤ Z.of_nat (length l))
  then Some (take (Z.to_nat n) (drop (Z.to_nat off) l))
  else None.

(** [store l off bs]: the region [l] with [bs] copied in from index [off]
    on (the caller checks that the window lies inside the region). *)
Definition store (l : list byte) (off : Z) (bs : list byte) : list byte :=
  take (Z.to_nat off) l ++ bs ++ drop (Z.to_nat off + length bs)%nat l.

(** ** The operating system *)

Module Posix.

(** Linux values of the flags volume.c passes. *)
Definition O_RDWR : Z := 2.
Definition O_CREAT : Z := 64.
Definition O_TRUNC : Z := 512.
Definition F_OK : Z := 0.

(** A regular file: its size, its bytes (sparse: an address below
    [f_size] that has no entry is a hole and reads as zero) and whether
    this process may open it for reading and writing. *)
Record file := File {
  f_size : Z;
  f_data : gmap Z byte;
  f_rw : bool
}.

(** What a descriptor refers to: a stream that cannot be positioned (the
    terminal or a pipe behind descriptors 0, 1 and 2), or a regular file
    opened read/write, named by its path (volume.c never unlinks or
    renames). *)
Inductive descr :=
| DStream
| DFile (path : string).

(** The environment of the process: the files of the working directory,
    whether the process may create a file there, the umask (the
    permission bits removed from the mode of a file the process creates),
    whether [ftruncate] can extend a file (the file system has the room
    and supports it: the call fails with ENOSPC, EFBIG or EPERM
    otherwise), and the descriptor table. *)
Record os_state := Os {
  fs : gmap string file;
  dir_writable : bool;
  umask : Z;
  extends : bool;
  fds : gmap Z descr
}.

(** The state with other files and another descriptor table. *)
Definition set (x : gmap string file) (t : gmap Z descr) (os : os_state)
  : os_state :=
  Os x (dir_writable os) (umask os) (extends os) t.

Definition has_flag (flags f : Z) : bool := negb (Z.land flags f =? 0).

Fixpoint lowest_free_from (fuel : nat) (n : Z) (t : gmap Z descr) : Z :=
  match fuel with
  | O => n
  | S k => match t !! n with
           | Some _ => lowest_free_from k (n + 1) t
           | None => n
           end
  end.

(** The lowest descriptor number that is not open. *)
Definition lowest_free (t : gmap Z descr) : Z :=
  lowest_free_from (size t) 0 t.

(** What the descriptor [fd] refers to; a negative number is never a
  descriptor. *)
Definition descriptor (os : os_state) (fd : Z) : option descr :=
if decide (0 ≤ fd) then fds os !! fd else None.

(** [access(path, F_OK)]: 0 when the path exists, -1 otherwise. *)
Definition access (path : string) (mode : Z) (os : os_state) : Z :=
  match fs os !! path with
  | Some _ => 0
  | None => -1
  end.

(** The owner may read and write under the permission bits [mode]
    (bits 8 and 7, octal 0400 and 0200). *)
Definition owner_rw (mode : Z) : bool := Z.testbit mode 8 && Z.testbit mode 7.

(** The file [open] creates: empty, with the permission bits asked for
    less those of the umask. The process owns it and has no privilege
    that overrides the permission bits: it may open the file for reading
    and writing later when the owner bits allow both. *)
Definition created_file (mode : Z) (os : os_state) : file :=
  File 0 ∅ (owner_rw (Z.land mode (Z.lnot (umask os)))).

(** The environment puts nothing in the way of a new file: it can be
    created, it comes out readable and writable for its owner, and it
    can be extended. *)
Definition can_create (os : os_state) : bool :=
  dir_writable os && owner_rw (Z.lnot (umask os)) && extends os.

(** [open(path, flags, mode)], for the read/write opens of volume.c. An
    existing file is opened when the process may read and write it (and
    emptied under [O_TRUNC]); a missing one is created under [O_CREAT]
    when the directory allows it, and is open for reading and writing
    whatever permission bits it got. The result is the new descriptor,
    or -1. *)
Definition open (path : string) (flags mode : Z) (os : os_state) : Z * os_state :=
  match fs os !! path with
  | Some f =>
      if f_rw f then
        let fs' := if has_flag flags O_TRUNC
                   then <[path := File 0 ∅ (f_rw f)]> (fs os)
                   else fs os in
        let fd := lowest_free (fds os) in
        (fd, set fs' (<[fd := DFile path]> (fds os)) os)
      else (-1, os)
  | None =>
      if has_flag flags O_CREAT && dir_writable os then
        let fd := lowest_free (fds os) in
        (fd, set (<[path := created_file mode os]> (fs os))
                 (<[fd := DFile path]> (fds os)) os)
      else (-1, os)
  end.

(** [ftruncate(fd, len)]: sets the size; bytes from [len] on are dropped,
    an extension is a hole. An extension fails where the environment does
    not allow it, and leaves the file as it is. *)
Definition ftruncate (fd len : Z) (os : os_state) : Z * os_state :=
  match descriptor os fd with
  | Some (DFile path) =>
      match fs os !! path with
      | Some f =>
          if decide (0 ≤ len) then
            if bool_decide (f_size f < len) && negb (extends os) then (-1, os)
            else
              let f' := File len (filter (λ kv, kv.1 < len) (f_data f)) (f_rw f) in
              (0, set (<[path := f']> (fs os)) (fds os) os)
          else (-1, os)
      | None => (-1, os)
      end
  | _ => (-1, os)
  end.

(** The bytes a positioned read of [n] bytes at [pos] returns: it stops
    at the end of the file. *)
Definition file_read (f : file) (pos n : Z) : list byte :=
  (λ i, default Byte.x00 (f_data f !! i))
    <$> seqZ pos (Z.max 0 (Z.min n (f_size f - pos))).

Fixpoint write_bytes (pos : Z) (bs : list byte) (d : gmap Z byte) : gmap Z byte :=
  match bs with
  | [] => d
  | b :: bs' => write_bytes (pos + 1) bs' (<[pos := b]> d)
  end.

(** A positioned write of [bs] at [pos]; the file grows when the write
    ends past its size. Writing nothing changes nothing. *)
Definition file_write (f : file) (pos : Z) (bs : list byte) : file :=
  match bs with
  | [] => f
  | _ => File (Z.max (f_size f) (pos + Z.of_nat (length bs)))
              (write_bytes pos bs (f_data f)) (f_rw f)
  end.

(** [pread(fd, buf, n, pos)]: the number of bytes read (or -1) and the
    bytes to be placed at [buf]. *)
Definition pread (fd n pos : Z) (os : os_state) : Z * list byte :=
  match descriptor os fd with
  | Some (DFile path) =>
      match fs os !! path with
      | Some f =>
          if decide (0 ≤ pos) then
            let bs := file_read f pos n in (Z.of_nat (length bs), bs)
          else (-1, [])
      | None => (-1, [])
      end
  | _ => (-1, [])
  end.

(** One call of [pread] or [pwrite] transfers at most this many bytes on
    Linux (0x7ffff000); positions and lengths up to it are also within
    the size limits of the file systems in use. *)
Definition MAX_RW_COUNT : Z := 2 ^ 31 - 4096.

(** [pwrite(fd, buf, n, pos)] where [bs] are the [n] bytes at [buf]: the
    number of bytes written (or -1) and the new state. The model writes
    all the bytes at every position from 0 on. The real call does so for
    writes that end at or below [MAX_RW_COUNT]; beyond, it may be short
    (more than [MAX_RW_COUNT] bytes) or refused (EFBIG past the size limit
    of the file system, EINVAL past 2^63 - 1), which the model does not
    follow: it is faithful to the real call for writes inside that
    range. *)
Definition pwrite (fd : Z) (bs : list byte) (pos : Z) (os : os_state)
  : Z * os_state :=
  match descriptor os fd with
  | Some (DFile path) =>
      match fs os !! path with
      | Some f =>
          if decide (0 ≤ pos) then
            (Z.of_nat (length bs),
             set (<[path := file_write f pos bs]> (fs os)) (fds os) os)
          else (-1, os)
      | None => (-1, os)
      end
  | _ => (-1, os)
  end.

(** [close(fd)]. *)
Definition close (fd : Z) (os : os_state) : Z * os_state :=
  match descriptor os fd with
  | Some _ => (0, set (fs os) (delete fd (fds os)) os)
  | None => (-1, os)
  end.

(** The conversion of a [uint64_t] to the signed 64-bit [off_t]. *)
Definition to_off_t (a : Z) : Z :=
  if decide (a mod 2 ^ 64 < 2 ^ 63) then a mod 2 ^ 64 else a mod 2 ^ 64 - 2 ^ 64.

End Posix.

(** ** The C structures of the backend *)

(** Modelled from the spec: [struct volume_data] (data.h) is the spec's
    data buffer, a handle with an associated offset; volume.c reads its
    fields [ptr] and [offset]. [ptr] names a byte region of the heap. *)
Module volume_data.
Record t := mk { ptr : Z; offset : Z }.
End volume_data.

(** Modelled from the spec: [struct myvolume_io] (volume.h) is the private
    area of a request; volume.c assigns its fields [data] (a pointer to a
    [volume_data]) and [offset] (a [uint32_t]). *)
Module myvolume_io.
Record t := mk { data : Z; offset : Z }.
End myvolume_io.

(** Modelled from the spec: [struct myvolume] (volume.h) is the private
    area of a volume; volume.c uses its field [name], a C string that is
    not set (here [None]) until the volume is opened. *)
Module myvolume.
Record t := mk { name : option string }.
End myvolume.

(** Modelled from the spec: the direction codes of the framework's header;
    a request is a read or a write. *)
Definition OCF_READ : Z := 0.
Definition OCF_WRITE : Z := 1.

(** Modelled from the spec: the fields of the framework's [struct ocf_io]
    that volume.c reads ([dir], [addr], [bytes]), the volume the request
    is for and the request's private area. The completion callback [end]
    is modelled by the completion log of the state. *)
Module ocf_io.
Record t := mk {
  dir : Z;
  addr : Z;           (* uint64_t *)
  bytes : Z;          (* uint32_t *)
  volume : Z;
  priv : myvolume_io.t
}.
Definition set_priv (p : myvolume_io.t) (i : t) : t :=
  mk (dir i) (addr i) (bytes i) (volume i) p.
End ocf_io.

(** Modelled from the spec: a framework volume carries the opaque
    identifier it was created with and the backend's private area. *)
Module ocf_volume.
Record t := mk { uuid : string; priv : myvolume.t }.
End ocf_volume.

(** An argument of [printf]. *)
Inductive parg :=
| PStr (s : string)
| PInt (z : Z).

(** ** The program state *)

Record state := State {
  os : Posix.os_state;
  (* the globals of volume.c *)
  core_fd : Z;
  cache_fd : Z;
  need_reload : Z;
  (* the heap shared with the caller, by address *)
  volumes : gmap Z ocf_volume.t;
  ios : gmap Z ocf_io.t;
  datas : gmap Z volume_data.t;
  bufs : gmap Z (list byte);
  (* what the backend emits *)
  stdout : list (string * list parg);
  completions : list (Z * Z)      (* (request, status) per call of io->end *)
}.

Definition set_os (x : Posix.os_state) (s : state) : state :=
  State x (core_fd s) (cache_fd s) (need_reload s) (volumes s) (ios s)
        (datas s) (bufs s) (stdout s) (completions s).
Definition set_core_fd (x : Z) (s : state) : state :=
  State (os s) x (cache_fd s) (need_reload s) (volumes s) (ios s)
        (datas s) (bufs s) (stdout s) (completions s).
Definition set_cache_fd (x : Z) (s : state) : state :=
  State (os s) (core_fd s) x (need_reload s) (volumes s) (ios s)
        (datas s) (bufs s) (stdout s) (completions s).
Definition set_need_reload (x : Z) (s : state) : state :=
  State (os s) (core_fd s) (cache_fd s) x (volumes s) (ios s)
        (datas s) (bufs s) (stdout s) (completions s).
Definition set_volumes (x : gmap Z ocf_volume.t) (s : state) : state :=
  State (os s) (core_fd s) (cache_fd s) (need_reload s) x (ios s)
        (datas s) (bufs s) (stdout s) (completions s).
Definition set_ios (x : gmap Z ocf_io.t) (s : state) : state :=
  State (os s) (core_fd s) (cache_fd s) (need_reload s) (volumes s) x
        (datas s) (bufs s) (stdout s) (completions s).
Definition set_datas (x : gmap Z volume_data.t) (s : state) : state :=
  State (os s) (core_fd s) (cache_fd s) (need_reload s) (volumes s) (ios s)
        x (bufs s) (stdout s) (completions s).
Definition set_bufs (x : gmap Z (list byte)) (s : state) : state :=
  State (os s) (core_fd s) (cache_fd s) (need_reload s) (volumes s) (ios s)
        (datas s) x (stdout s) (completions s).
Definition set_stdout (x : list (string * list parg)) (s : state) : state :=
  State (os s) (core_fd s) (cache_fd s) (need_reload s) (volumes s) (ios s)
        (datas s) (bufs s) x (completions s).
Definition set_completions (x : list (Z * Z)) (s : state) : state :=
  State (os s) (core_fd s) (cache_fd s) (need_reload s) (volumes s) (ios s)
        (datas s) (bufs s) (stdout s) x.

(** The state of a process that has just started: the static initialisers
    of volume.c ([core_fd = 0], [cache_fd = 0], [need_reload = -1]) over
    whatever the environment and the caller provide. *)
Definition process_start (o : Posix.os_state) (vs : gmap Z ocf_volume.t)
    (rs : gmap Z ocf_io.t) (ds : gmap Z volume_data.t)
    (bs : gmap Z (list byte)) : state :=
  State o 0 0 (-1) vs rs ds bs [] [].

(** ** Computations: state passing, [None] for undefined behaviour *)

Definition M (A : Type) : Type := state → option (A * state).

#[global] Instance M_ret : MRet M := λ A a st, Some (a, st).
#[global] Instance M_bind : MBind M := λ A B f m st,
  match m st with
  | Some (a, st') => f a st'
  | None => None
  end.

Definition undefined {A} : M A := λ _, None.
Definition gets {A} (f : state → A) : M A := λ st, Some (f st, st).
Definition modify (f : state → state) : M unit := λ st, Some (tt, f st).

(** Following a pointer into one of the heaps; a dangling or null pointer
    is undefined behaviour. *)
Definition deref {A} (heap : state → gmap Z A) (p : Z) : M A := λ st,
  match heap st !! p with
  | Some a => Some (a, st)
  | None => None
  end.

(** A system call that changes the operating system's state. *)
Definition syscall {A} (f : Posix.os_state → A * Posix.os_state) : M A := λ st,
  let (r, o) := f (os st) in Some (r, set_os o st).

(** A system call that only inspects it. *)
Definition sysquery {A} (f : Posix.os_state → A) : M A := λ st,
  Some (f (os st), st).

(** A C string argument: a null pointer is undefined behaviour. *)
Definition c_str (s : option string) : M string :=
  match s with
  | Some x => mret x
  | None => undefined
  end.

(** [strcmp]: the sign of the comparison, zero exactly on equal strings. *)
Definition strcmp (a b : string) : Z :=
  match String.compare a b with
  | Eq => 0
  | Lt => -1
  | Gt => 1
  end.

Definition printf (fmt : string) (args : list parg) : M unit :=
  modify (λ st, set_stdout (stdout st ++ [(fmt, args)]) st).

(** [io->end(io, status)]: the caller's completion callback, recorded. *)
Definition io_end (io status : Z) : M unit :=
  _ ← deref ios io;
  modify (λ st, set_completions (completions st ++ [(io, status)]) st).

(** The bytes of [n] bytes of memory at [ptr + off]. *)
Definition read_mem (ptr off n : Z) : M (list byte) :=
  b ← deref bufs ptr;
  match load b off n with
  | Some bs => mret bs
  | None => undefined
  end.

(** Copying [bs] to memory at [ptr + off], inside a window of [n] bytes
    that must lie in the region. *)
Definition write_mem (ptr off n : Z) (bs : list byte) : M unit :=
  b ← deref bufs ptr;
  match load b off n with
  | Some _ =>
      if decide (Z.of_nat (length bs) ≤ n)
      then modify (λ st, set_bufs (<[ptr := store b off bs]> (bufs st)) st)
      else undefined
  | None => undefined
  end.

(** ** The framework's accessors *)

(** Modelled from the spec: [ocf_volume_get_uuid] and [ocf_uuid_to_str]
    give the identifier string of a volume. *)
Definition ocf_volume_get_uuid (volume : Z) : M string :=
  v ← deref volumes volume; mret (ocf_volume.uuid v).
Definition ocf_uuid_to_str (uuid : string) : string := uuid.

(** Modelled from the spec: [ocf_volume_get_priv] gives the backend's
    private area of a volume. *)
Definition ocf_volume_get_priv (volume : Z) : M myvolume.t :=
  v ← deref volumes volume; mret (ocf_volume.priv v).

(** Modelled from the spec: [ocf_io_get_volume] gives the volume a request
    was created for and [ocf_io_get_priv] its private area. *)
Definition ocf_io_get_volume (io : Z) : M Z :=
  i ← deref ios io; mret (ocf_io.volume i).
Definition ocf_io_get_priv (io : Z) : M myvolume_io.t :=
  i ← deref ios io; mret (ocf_io.priv i).

(** ** volume.c *)

Definition VOL_SIZE : Z := 200 * 1024 * 1024.

(** The octal literal [0644] of the calls of [open]. *)
Definition MODE_0644 : Z := 6 * 64 + 4 * 8 + 4.

Definition core_path : string := "core".
Definition cache_path : string := "cache".

(** The calls [pwrite(fd, (uint8_t* ) data->ptr + data->offset, io->bytes,
    io->addr)] and [pread(...)] of [volume_submit_io], with the arguments
    as the source passes them. The results of both are dropped there. *)
Definition submit_pwrite (fd : Z) (data : volume_data.t) (io : ocf_io.t) : M unit :=
  bs ← read_mem (volume_data.ptr data) (volume_data.offset data) (ocf_io.bytes io);
  _ ← syscall (Posix.pwrite fd bs (Posix.to_off_t (ocf_io.addr io)));
  mret tt.

Definition submit_pread (fd : Z) (data : volume_data.t) (io : ocf_io.t) : M unit :=
  r ← sysquery (Posix.pread fd (ocf_io.bytes io) (Posix.to_off_t (ocf_io.addr io)));
  write_mem (volume_data.ptr data) (volume_data.offset data) (ocf_io.bytes io) r.2.

(** The assignment [myvolume->name = name] to the private area of a
    volume. *)
Definition set_myvolume_name (volume : Z) (name : string) : M unit :=
  v ← deref volumes volume;
  modify (λ st, set_volumes
    (<[volume := ocf_volume.mk (ocf_volume.uuid v) (myvolume.mk (Some name))]>
       (volumes st)) st).

(** [volume_open]: stores the identifier as the volume's name and attaches
    the backing file, creating it with [VOL_SIZE] bytes when it is not
    there. The results of [open] and [ftruncate] are not inspected. *)
Definition volume_open (volume : Z) (volume_params : Z) : M Z :=
  uuid ← ocf_volume_get_uuid volume;
  _ ← ocf_volume_get_priv volume;
  let name := ocf_uuid_to_str uuid in
  set_myvolume_name volume name;;
  (if decide (strcmp name "cache" = 0) then
     r ← sysquery (Posix.access cache_path Posix.F_OK);
     if decide (r = 0) then
       fd ← syscall (Posix.open cache_path Posix.O_RDWR MODE_0644);
       modify (set_cache_fd fd)
     else
       fd ← syscall (Posix.open cache_path
                       (Z.lor (Z.lor Posix.O_RDWR Posix.O_CREAT) Posix.O_TRUNC)
                       MODE_0644);
       modify (set_cache_fd fd);;
       fd' ← gets cache_fd;
       _ ← syscall (Posix.ftruncate fd' VOL_SIZE);
       mret tt
   else
     r ← sysquery (Posix.access core_path Posix.F_OK);
     if decide (r = 0) then
       fd ← syscall (Posix.open core_path Posix.O_RDWR MODE_0644);
       modify (set_core_fd fd)
     else
       fd ← syscall (Posix.open core_path
                       (Z.lor (Z.lor Posix.O_RDWR Posix.O_CREAT) Posix.O_TRUNC)
                       MODE_0644);
       modify (set_core_fd fd);;
       fd' ← gets core_fd;
       _ ← syscall (Posix.ftruncate fd' VOL_SIZE);
       mret tt);;
  printf "VOL OPEN: (name: %s)\n" [PStr name];;
  mret 0.

(** [volume_close]: closes the descriptor of the backing file. *)
Definition volume_close (volume : Z) : M unit :=
  myvolume ← ocf_volume_get_priv volume;
  name ← c_str (myvolume.name myvolume);
  printf "VOL CLOSE: (name: %s)\n" [PStr name];;
  if decide (strcmp name "cache" = 0) then
    fd ← gets cache_fd;
    _ ← syscall (Posix.close fd);
    mret tt
  else
    fd ← gets core_fd;
    _ ← syscall (Posix.close fd);
    mret tt.

(** [myvolume_io_set_data]: assigns [data] and [offset] to the request. *)
Definition myvolume_io_set_data (io data offset : Z) : M Z :=
  _ ← ocf_io_get_priv io;
  i ← deref ios io;
  modify (λ st, set_ios
    (<[io := ocf_io.set_priv (myvolume_io.mk data offset) i]> (ios st)) st);;
  mret 0.

(** [myvolume_io_get_data]: the data pointer stored in the request. *)
Definition myvolume_io_get_data (io : Z) : M Z :=
  myvolume_io ← ocf_io_get_priv io;
  mret (myvolume_io.data myvolume_io).

(** Modelled from the spec: the framework's [ocf_io_get_data] retrieves
    the data bound to a request; it does so through the [get_data] entry
    of [volume_properties.io_ops], which is [myvolume_io_get_data]. *)
Definition ocf_io_get_data (io : Z) : M Z := myvolume_io_get_data io.

(** [volume_submit_io]: one positioned transfer between the backing file
    and the memory at [data->ptr + data->offset], then the completion. *)
Definition volume_submit_io (io : Z) : M unit :=
  data_p ← ocf_io_get_data io;
  v ← ocf_io_get_volume io;
  myvolume ← ocf_volume_get_priv v;
  i ← deref ios io;
  name ← c_str (myvolume.name myvolume);
  data ← deref datas data_p;
  (if decide (strcmp name "cache" = 0) then
     if decide (ocf_io.dir i = OCF_WRITE) then
       fd ← gets cache_fd; submit_pwrite fd data i
     else
       fd ← gets cache_fd; submit_pread fd data i
   else
     if decide (ocf_io.dir i = OCF_WRITE) then
       fd ← gets core_fd; submit_pwrite fd data i
     else
       fd ← gets core_fd; submit_pread fd data i);;
  printf "VOL: (name: %s), IO: (dir: %s, addr: %ld, bytes: %d)\n"
    [PStr name;
     PStr (if decide (ocf_io.dir i = OCF_READ) then "read" else "write");
     PInt (ocf_io.addr i); PInt (ocf_io.bytes i)];;
  io_end io 0.

(** [volume_submit_flush] and [volume_submit_discard]: only complete the
    request, with status 0. *)
Definition volume_submit_flush (io : Z) : M unit := io_end io 0.

Definition volume_submit_discard (io : Z) : M unit := io_end io 0.

Definition volume_get_max_io_size (volume : Z) : Z := 128 * 1024.

Definition volume_get_length (volume : Z) : Z := VOL_SIZE.

(** [(bool) n] *)
Definition to_bool (n : Z) : bool := bool_decide (n ≠ 0).

(** [need_reload_cache]: the memoised probe for the cache file. *)
Definition need_reload_cache : M bool :=
  n ← gets need_reload;
  if decide (n ≠ -1) then
    mret (to_bool n)
  else
    r ← sysquery (Posix.access cache_path Posix.F_OK);
    modify (set_need_reload (if decide (r = 0) then 1 else 0));;
    n' ← gets need_reload;
    mret (to_bool n').

(** ** Derived notions used by the statements *)

(** The backing file and the descriptor variable a volume name selects. *)
Definition backing_path (name : string) : string :=
  if decide (name = "cache") then cache_path else core_path.

Definition backing_fd (name : string) (st : state) : Z :=
  if decide (name = "cache") then cache_fd st else core_fd st.

(** A volume is open when its name has been recorded and the descriptor
    variable its name selects refers to its backing file. *)
Definition volume_is_open (st : state) (volume : Z) : Prop :=
  ∃ v f,
    volumes st !! volume = Some v ∧
    myvolume.name (ocf_volume.priv v) = Some (ocf_volume.uuid v) ∧
    Posix.descriptor (os st) (backing_fd (ocf_volume.uuid v) st)
      = Some (Posix.DFile (backing_path (ocf_volume.uuid v))) ∧
    Posix.fs (os st) !! backing_path (ocf_volume.uuid v) = Some f.

(** The bytes of the memory window a request transfers through: [io->bytes]
    bytes at [data->ptr + data->offset], for the data bound to the request. *)
Definition io_window (st : state) (io : Z) : option (list byte) :=
  i ← ios st !! io;
  d ← datas st !! myvolume_io.data (ocf_io.priv i);
  b ← bufs st !! volume_data.ptr d;
  load b (volume_data.offset d) (ocf_io.bytes i).

(** The content of the backing file of a volume name. *)
Definition backing_file (st : state) (name : string) : option Posix.file :=
  Posix.fs (os st) !! backing_path name.

(** The diagnostic line of [volume_submit_io]. *)
Definition io_message (name : string) (i : ocf_io.t) : string * list parg :=
  ("VOL: (name: %s), IO: (dir: %s, addr: %ld, bytes: %d)\n",
   [PStr name;
    PStr (if decide (ocf_io.dir i = OCF_READ) then "read" else "write");
    PInt (ocf_io.addr i); PInt (ocf_io.bytes i)]).

(** The state after the transfer of a request has been logged and
    completed with [status]. *)
Definition completed (io status : Z) (name : string) (i : ocf_io.t)
    (st : state) : state :=
  set_completions (completions st ++ [(io, status)])
    (set_stdout (stdout st ++ [io_message name i]) st).

(** The assignment to the descriptor variable a name selects. *)
Definition set_backing_fd (name : string) (fd : Z) (st : state) : state :=
  if decide (name = "cache") then set_cache_fd fd st else set_core_fd fd st.

(** The volume heap after [myvolume->name = ocf_uuid_to_str(uuid)]. *)
Definition named (volume : Z) (v : ocf_volume.t) (st : state) : state :=
  set_volumes
    (<[volume := ocf_volume.mk (ocf_volume.uuid v)
                   (myvolume.mk (Some (ocf_volume.uuid v)))]> (volumes st)) st.

Definition open_message (name : string) : string * list parg :=
  ("VOL OPEN: (name: %s)\n", [PStr name]).

Definition close_message (name : string) : string * list parg :=
  ("VOL CLOSE: (name: %s)\n", [PStr name]).

Definition O_CREATE_FLAGS : Z :=
  Z.lor (Z.lor Posix.O_RDWR Posix.O_CREAT) Posix.O_TRUNC.

(** The bytes a read of [N] bytes at [A] finds in the backing file of a
    volume. *)
Definition volume_range (st : state) (volume A N : Z) : option (list byte) :=
  v ← volumes st !! volume;
  f ← backing_file st (ocf_volume.uuid v);
  Some (Posix.file_read f A N).

(** A request is ready to be submitted: it is a request of a volume that
    has a name, and its memory window lies inside the buffer of the data
    bound to it. *)
Definition request_ready (st : state) (io : Z) : Prop :=
  ∃ i v name,
    ios st !! io = Some i ∧
    volumes st !! ocf_io.volume i = Some v ∧
    myvolume.name (ocf_volume.priv v) = Some name ∧
    is_Some (io_window st io).

(** The backing file of a volume name cannot be attached: it is there but
    may not be opened read/write, or it is missing and may not be
    created. *)
Definition cannot_attach (st : state) (name : string) : Prop :=
  match backing_file st name with
  | Some f => Posix.f_rw f = false
  | None => Posix.dir_writable (os st) = false
  end.

(** The backing file of a volume name cannot be extended: it is missing
    and may be created, but [ftruncate] cannot extend it. *)
Definition cannot_extend (st : state) (name : string) : Prop :=
  backing_file st name = None ∧
  Posix.dir_writable (os st) = true ∧
  Posix.extends (os st) = false.

(** ** Runs of a process *)

(** The entry points of volume.c. *)
Inductive call :=
| Call_volume_open (volume volume_params : Z)
| Call_volume_close (volume : Z)
| Call_volume_submit_io (io : Z)
| Call_volume_submit_flush (io : Z)
| Call_volume_submit_discard (io : Z)
| Call_myvolume_io_set_data (io data offset : Z)
| Call_myvolume_io_get_data (io : Z)
| Call_need_reload_cache.

Definition run_call (c : call) : M unit :=
  match c with
  | Call_volume_open volume volume_params =>
      _ ← volume_open volume volume_params; mret tt
  | Call_volume_close volume => volume_close volume
  | Call_volume_submit_io io => volume_submit_io io
  | Call_volume_submit_flush io => volume_submit_flush io
  | Call_volume_submit_discard io => volume_submit_discard io
  | Call_myvolume_io_set_data io data offset =>
      _ ← myvolume_io_set_data io data offset; mret tt
  | Call_myvolume_io_get_data io => _ ← myvolume_io_get_data io; mret tt
  | Call_need_reload_cache => _ ← need_reload_cache; mret tt
  end.

(** What happens in a process: a call into the backend, a change of the
    operating system's state by the environment (files created, deleted
    or rewritten, descriptors opened or closed), or a change of the
    caller's own objects (volumes, requests, data, buffers). *)
Inductive event :=
| Ev_call (c : call)
| Ev_env (o : Posix.os_state)
| Ev_caller (vs : gmap Z ocf_volume.t) (rs : gmap Z ocf_io.t)
            (ds : gmap Z volume_data.t) (bs : gmap Z (list byte)).

Definition step (e : event) : M unit :=
  match e with
  | Ev_call c => run_call c
  | Ev_env o => modify (set_os o)
  | Ev_caller vs rs ds bs =>
      modify (λ st, set_bufs bs (set_datas ds (set_ios rs (set_volumes vs st))))
  end.

(** A run: the events in order; it is defined as long as no call is. *)
Fixpoint run (es : list event) : M unit :=
  match es with
  | [] => mret tt
  | e :: es' => step e;; run es'
  end.

Definition is_probe (e : event) : bool :=
  match e with
  | Ev_call Call_need_reload_cache => true
  | _ => false
  end.

(** A computation keeps [need_reload]: whenever it is defined, the flag
    is what it was. *)
Definition keeps {A} (m : M A) : Prop :=
  ∀ st a st', m st = Some (a, st') → need_reload st' = need_reload st.

(** ** Concrete scenarios *)

(** The descriptors a process starts with. *)
Definition std_fds : gmap Z Posix.descr :=
  <[0 := Posix.DStream]> (<[1 := Posix.DStream]> (<[2 := Posix.DStream]> ∅)).

(** Two volumes, "cache" at address 1 and "core" at address 2. *)
Definition two_volumes : gmap Z ocf_volume.t :=
  <[1 := ocf_volume.mk "cache" (myvolume.mk None)]>
    (<[2 := ocf_volume.mk "core" (myvolume.mk None)]> ∅).

(** A write request (address 10) and a read request (address 11) for the
    cache volume, 4 bytes at address 4096 each, bound to the data objects
    at 100 and 101. *)
Definition two_requests : gmap Z ocf_io.t :=
  <[10 := ocf_io.mk OCF_WRITE 4096 4 1 (myvolume_io.mk 100 0)]>
    (<[11 := ocf_io.mk OCF_READ 4096 4 1 (myvolume_io.mk 101 0)]> ∅).

(** The data object at 100 starts 2 bytes into its buffer, the one at 101
    starts 1 byte into its buffer. *)
Definition two_datas : gmap Z volume_data.t :=
  <[100 := volume_data.mk 1000 2]> (<[101 := volume_data.mk 1001 1]> ∅).

Definition two_buffers : gmap Z (list byte) :=
  <[1000 := [Byte.x01; Byte.x02; Byte.x03; Byte.x04;
             Byte.x05; Byte.x06; Byte.x07; Byte.x08]]>
    (<[1001 := [Byte.xff; Byte.xff; Byte.xff; Byte.xff; Byte.xff; Byte.xff]]> ∅).

(** A fresh environment: no file, files may be created and extended, the
    umask is 022 (decimal 18). *)
Definition os_fresh : Posix.os_state := Posix.Os ∅ true 18 true std_fds.

Definition st_fresh : state :=
  process_start os_fresh two_volumes two_requests two_datas two_buffers.

(** An environment whose cache file is there but may not be opened
    read/write by this process. *)
Definition os_denied : Posix.os_state :=
  Posix.Os (<["cache" := Posix.File 8192 ∅ false]> ∅) true 18 true std_fds.

Definition st_denied : state :=
  process_start os_denied two_volumes two_requests two_datas two_buffers.

(** The state [m] leads to from [st], or [st] where [m] is undefined. *)
Definition after {A} (m : M A) (st : state) : state :=
  match m st with
  | Some (_, st') => st'
  | None => st
  end.

(** The fresh process after the cache volume has been opened. *)
Definition st_opened : state := after (volume_open 1 0) st_fresh.

(** The process of [st_denied] after the cache volume has been opened:
    [open] has failed there. *)
Definition st_refused : state := after (volume_open 1 0) st_denied.

(** The open cache volume after the write request has been bound, by
    [myvolume_io_set_data], to the data object at 100 with offset 4. *)
Definition st_bound : state := after (myvolume_io_set_data 10 100 4) st_opened.

(** The request [io] (with fields [i]) is ready for a transfer on an open
    volume: its volume [v] is open with backing file [f], and it is bound
    to the data object [d] over the buffer [b], in which the window of
    [io->bytes] bytes at [data->offset] lies. *)
Definition transfer_ready (st : state) (io : Z) (i : ocf_io.t)
    (v : ocf_volume.t) (f : Posix.file) (d : volume_data.t)
    (b : list byte) : Prop :=
  ios st !! io = Some i ∧
  volumes st !! ocf_io.volume i = Some v ∧
  myvolume.name (ocf_volume.priv v) = Some (ocf_volume.uuid v) ∧
  Posix.descriptor (os st) (backing_fd (ocf_volume.uuid v) st)
    = Some (Posix.DFile (backing_path (ocf_volume.uuid v))) ∧
  Posix.fs (os st) !! backing_path (ocf_volume.uuid v) = Some f ∧
  datas st !! myvolume_io.data (ocf_io.priv i) = Some d ∧
  bufs st !! volume_data.ptr d = Some b ∧
  is_Some (load b (volume_data.offset d) (ocf_io.bytes i)).

(** Requests for the edge cases, all for the cache volume: a write at
    address 2^63 (12), a read at the end of the file (13), a write of no
    byte (14), a write across the end of the file (15), a request whose
    direction code is 2 (16), and a write next to that of request 10 (17). *)
Definition edge_requests : gmap Z ocf_io.t :=
  <[12 := ocf_io.mk OCF_WRITE (2 ^ 63) 4 1 (myvolume_io.mk 100 0)]>
  (<[13 := ocf_io.mk OCF_READ VOL_SIZE 4 1 (myvolume_io.mk 101 0)]>
  (<[14 := ocf_io.mk OCF_WRITE 0 0 1 (myvolume_io.mk 100 0)]>
  (<[15 := ocf_io.mk OCF_WRITE (VOL_SIZE - 2) 4 1 (myvolume_io.mk 100 0)]>
  (<[16 := ocf_io.mk 2 4096 4 1 (myvolume_io.mk 101 0)]>
  (<[17 := ocf_io.mk OCF_WRITE 4100 4 1 (myvolume_io.mk 101 0)]>
     two_requests))))).

(** The open cache volume of [st_opened] with those requests. *)
Definition st_edge : state := set_ios edge_requests st_opened.

(** A third volume, "disk", at address 3: like "core", its identifier is
    not "cache". *)
Definition three_volumes : gmap Z ocf_volume.t :=
  <[3 := ocf_volume.mk "disk" (myvolume.mk None)]> two_volumes.

(** The fresh process after the volumes "core" and "disk" have been
    opened, in this order. *)
Definition st_cores : state :=
  after (volume_open 3 0)
    (after (volume_open 2 0)
       (process_start os_fresh three_volumes two_requests two_datas
          two_buffers)).

(** A buffer of 128 KiB + 1 bytes at address 2000, a data object over it
    at 200, and a write request (20) of all its bytes at address 0 of the
    open cache volume of [st_opened]. *)
Definition big_buffer : list byte := replicate (Z.to_nat (128 * 1024 + 1)) Byte.x5a.

Definition st_big : state :=
  set_bufs (<[2000 := big_buffer]> (bufs st_opened))
    (set_datas (<[200 := volume_data.mk 2000 0]> (datas st_opened))
       (set_ios (<[20 := ocf_io.mk OCF_WRITE 0 (128 * 1024 + 1) 1
                           (myvolume_io.mk 200 0)]> (ios st_opened))
          st_opened)).

(** An environment in which a file can be created but not extended. *)
Definition os_full : Posix.os_state := Posix.Os ∅ true 18 false std_fds.

Definition st_full : state :=
  process_start os_full two_volumes two_requests two_datas two_buffers.



(** An environment whose cache file is there, 8192 bytes long, and may be
    opened read/write. *)
Definition os_existing : Posix.os_state :=
  Posix.Os (<["cache" := Posix.File 8192 ∅ true]> ∅) true 18 true std_fds.

Definition st_existing : state :=
  process_start os_existing two_volumes two_requests two_datas two_buffers.

(** A write request (address 30) for the core volume, 4 bytes at file
    address 0, bound to the data object at 100. *)
Definition core_requests : gmap Z ocf_io.t :=
  <[30 := ocf_io.mk OCF_WRITE 0 4 2 (myvolume_io.mk 100 0)]> two_requests.

(** A fresh process with the three volumes and that request. *)
Definition st_three : state :=
  process_start os_fresh three_volumes core_requests two_datas two_buffers.

(** The calls that open "core", open "disk", close "disk" and open
    "cache", in this order. *)
Definition crossing_calls : list event :=
  [Ev_call (Call_volume_open 2 0); Ev_call (Call_volume_open 3 0);
   Ev_call (Call_volume_close 3); Ev_call (Call_volume_open 1 0)].

(** The process of [st_three] after those calls. *)
Definition st_crossed : state := after (run crossing_calls) st_three.

(** * Properties *)

(** ** Strings, byte regions and files *)

Lemma string_compare_refl (a : string) : String.compare a a = Eq.
Proof.
  pose proof (String.compare_antisym a a) as H.
  destruct (String.compare a a); simpl in H; congruence.
Qed.

Lemma strcmp_eq a b : strcmp a b = 0 ↔ a = b.
Proof.
  unfold strcmp. destruct (String.compare a b) eqn:E.
  - apply String.compare_eq_iff in E. by split.
  - split; [done|]. intros ->. by rewrite string_compare_refl in E.
  - split; [done|]. intros ->. by rewrite string_compare_refl in E.
Qed.

Lemma length_store l off bs :
  0 ≤ off → off + Z.of_nat (length bs) ≤ Z.of_nat (length l) →
  length (store l off bs) = length l.
Proof.
  intros. unfold store. rewrite !length_app, length_take, length_drop. lia.
Qed.

Lemma load_store l off bs :
  0 ≤ off → off + Z.of_nat (length bs) ≤ Z.of_nat (length l) →
  load (store l off bs) off (Z.of_nat (length bs)) = Some bs.
Proof.
  intros H0 H1. unfold load. rewrite length_store by done.
  rewrite decide_True by lia. f_equal. unfold store.
  rewrite drop_app_length' by (rewrite length_take; lia).
  rewrite Nat2Z.id. by rewrite take_app_length.
Qed.

Lemma load_length l off n bs : load l off n = Some bs → Z.of_nat (length bs) = n.
Proof.
  unfold load. case_decide; [|done]. intros [= <-].
  rewrite length_take, length_drop. lia.
Qed.

Lemma write_bytes_lookup bs : ∀ pos d k,
  Posix.write_bytes pos bs d !! k =
    if decide (pos ≤ k < pos + Z.of_nat (length bs))
    then bs !! Z.to_nat (k - pos) else d !! k.
Proof.
  induction bs as [|b bs IH]; intros pos d k; simpl.
  - rewrite decide_False by lia. done.
  - rewrite IH. repeat case_decide; try lia.
    + replace (Z.to_nat (k - pos)) with (S (Z.to_nat (k - (pos + 1)))) by lia. done.
    + assert (k = pos) as -> by lia. rewrite lookup_insert_eq.
      by replace (pos - pos) with 0 by lia.
    + rewrite lookup_insert_ne by lia. done.
Qed.

(** What was written at [pos] is what a read of the same length at [pos]
    returns. *)
Lemma file_read_write f pos bs :
  0 ≤ pos →
  Posix.file_read (Posix.file_write f pos bs) pos (Z.of_nat (length bs)) = bs.
Proof.
  intros Hpos. destruct bs as [|b bs].
  { unfold Posix.file_read. simpl. rewrite seqZ_nil by lia. done. }
  unfold Posix.file_write, Posix.file_read.
  set (l := b :: bs). cbn [Posix.f_size Posix.f_data]. clearbody l.
  replace (Z.max 0 _) with (Z.of_nat (length l)) by lia.
  apply list_eq. intros i. rewrite list_lookup_fmap.
  destruct (decide (i < length l)%nat) as [Hi|Hi].
  - rewrite lookup_seqZ_lt by lia. simpl. rewrite write_bytes_lookup.
    rewrite decide_True by lia.
    replace (Z.to_nat (pos + Z.of_nat i - pos)) with i by lia.
    destruct (lookup_lt_is_Some_2 l i Hi) as [x Hx]. by rewrite Hx.
  - rewrite lookup_seqZ_ge by lia. simpl. symmetry. apply lookup_ge_None_2. lia.
Qed.


Lemma to_off_t_small a : 0 ≤ a < 2 ^ 63 → Posix.to_off_t a = a.
Proof.
  intros H. unfold Posix.to_off_t.
  rewrite Z.mod_small by lia. rewrite decide_True by lia. done.
Qed.

(** ** What one call does *)

Ltac munfold :=
  unfold c_str, printf, io_end, read_mem, write_mem;
  unfold mbind, mret, M_bind, M_ret, gets, modify, deref, syscall, sysquery,
    undefined.

Section submit.
Context (st : state) (io : Z) (i : ocf_io.t) (v : ocf_volume.t)
        (name : string) (d : volume_data.t) (b : list byte).
Hypothesis Hio : ios st !! io = Some i.
Hypothesis Hvol : volumes st !! ocf_io.volume i = Some v.
Hypothesis Hname : myvolume.name (ocf_volume.priv v) = Some name.
Hypothesis Hdata : datas st !! myvolume_io.data (ocf_io.priv i) = Some d.
Hypothesis Hbuf : bufs st !! volume_data.ptr d = Some b.

(** A write hands the bytes of the window to [pwrite] on the descriptor
    the name selects and completes with status 0, whatever [pwrite]
    returns. *)
Lemma volume_submit_io_write bs :
  ocf_io.dir i = OCF_WRITE →
  load b (volume_data.offset d) (ocf_io.bytes i) = Some bs →
  volume_submit_io io st =
    Some (tt, completed io 0 name i
      (set_os (Posix.pwrite (backing_fd name st) bs
                 (Posix.to_off_t (ocf_io.addr i)) (os st)).2 st)).
Proof.
  intros Hdir Hload.
  unfold volume_submit_io, ocf_io_get_data, myvolume_io_get_data,
    ocf_io_get_priv, ocf_io_get_volume, ocf_volume_get_priv, submit_pwrite,
    backing_fd.
  munfold. repeat (rewrite ?Hio, ?Hvol, ?Hname, ?Hdata; simpl).
  destruct (decide (strcmp name "cache" = 0)) as [E|E];
    [apply strcmp_eq in E; rewrite (decide_True _ _ E)
    |rewrite strcmp_eq in E; rewrite (decide_False _ _ E)];
    rewrite (decide_True _ _ Hdir); simpl; rewrite Hbuf, Hload; simpl;
    destruct (Posix.pwrite _ _ _ _); simpl; rewrite Hio; done.
Qed.

Lemma length_file_read f pos n :
  0 ≤ n → Z.of_nat (length (Posix.file_read f pos n)) ≤ n.
Proof.
  intros. unfold Posix.file_read. rewrite length_fmap, length_seqZ. lia.
Qed.

Lemma length_pread fd n pos o :
  0 ≤ n → Z.of_nat (length (Posix.pread fd n pos o).2) ≤ n.
Proof.
  intros. unfold Posix.pread.
  repeat case_match; simpl; try lia. by apply length_file_read.
Qed.

(** A read copies what [pread] on the descriptor the name selects
    delivers to the start of the window and completes with status 0,
    whatever [pread] returns. *)
Lemma volume_submit_io_read :
  ocf_io.dir i ≠ OCF_WRITE →
  is_Some (load b (volume_data.offset d) (ocf_io.bytes i)) →
  volume_submit_io io st =
    Some (tt, completed io 0 name i
      (set_bufs (<[volume_data.ptr d :=
                    store b (volume_data.offset d)
                      (Posix.pread (backing_fd name st) (ocf_io.bytes i)
                         (Posix.to_off_t (ocf_io.addr i)) (os st)).2]>
                   (bufs st)) st)).
Proof.
  intros Hdir [w Hload].
  assert (0 ≤ ocf_io.bytes i) as Hn.
  { apply load_length in Hload. lia. }
  unfold volume_submit_io, ocf_io_get_data, myvolume_io_get_data,
    ocf_io_get_priv, ocf_io_get_volume, ocf_volume_get_priv, submit_pread,
    backing_fd.
  munfold. repeat (rewrite ?Hio, ?Hvol, ?Hname, ?Hdata; simpl).
  destruct (decide (strcmp name "cache" = 0)) as [E|E];
    [apply strcmp_eq in E; rewrite (decide_True _ _ E)
    |rewrite strcmp_eq in E; rewrite (decide_False _ _ E)];
    rewrite (decide_False _ _ Hdir); simpl; rewrite Hbuf, Hload;
    rewrite decide_True by (by apply length_pread); simpl;
    rewrite Hio; done.
Qed.
End submit.

Section open_close.
Context (st : state) (volume params : Z) (v : ocf_volume.t).
Hypothesis Hvol : volumes st !! volume = Some v.

#[local] Abbreviation name := (ocf_volume.uuid v).
#[local] Abbreviation path := (backing_path (ocf_volume.uuid v)).

(** [volume_open] when the backing file is there: one [open] without
    creation or truncation, whose result goes to the descriptor variable
    unchecked; the function returns 0. *)
Lemma volume_open_existing :
  is_Some (Posix.fs (os st) !! path) →
  volume_open volume params st =
    let r := Posix.open path Posix.O_RDWR MODE_0644 (os st) in
    Some (0, set_stdout (stdout st ++ [open_message name])
               (set_backing_fd name r.1 (set_os r.2 (named volume v st)))).
Proof.
  intros [f Hf].
  unfold volume_open, set_myvolume_name, ocf_volume_get_uuid,
    ocf_volume_get_priv, ocf_uuid_to_str, set_backing_fd, backing_path in *.
  munfold. repeat (rewrite ?Hvol; simpl).
  destruct (decide (strcmp (ocf_volume.uuid v) "cache" = 0)) as [E|E];
    [apply strcmp_eq in E; rewrite !(decide_True _ _ E) in *
    |rewrite strcmp_eq in E; rewrite !(decide_False _ _ E) in *];
    unfold Posix.access; simpl; rewrite Hf; simpl;
    destruct (Posix.open _ _ _ _); done.
Qed.

(** [volume_open] when the backing file is missing: one [open] with
    creation, then [ftruncate] to [VOL_SIZE] on whatever [open]
    returned; the function returns 0. *)
Lemma volume_open_missing :
  Posix.fs (os st) !! path = None →
  volume_open volume params st =
    let r := Posix.open path O_CREATE_FLAGS MODE_0644 (os st) in
    Some (0, set_stdout (stdout st ++ [open_message name])
               (set_os (Posix.ftruncate r.1 VOL_SIZE r.2).2
                  (set_backing_fd name r.1 (set_os r.2 (named volume v st))))).
Proof.
  intros Hf.
  unfold volume_open, set_myvolume_name, ocf_volume_get_uuid,
    ocf_volume_get_priv, ocf_uuid_to_str, set_backing_fd, backing_path, O_CREATE_FLAGS in *.
  munfold. repeat (rewrite ?Hvol; simpl).
  destruct (decide (strcmp (ocf_volume.uuid v) "cache" = 0)) as [E|E];
    [apply strcmp_eq in E; rewrite !(decide_True _ _ E) in *
    |rewrite strcmp_eq in E; rewrite !(decide_False _ _ E) in *];
    unfold Posix.access; simpl; rewrite Hf; simpl;
    destruct (Posix.open _ _ _ _); simpl;
    destruct (Posix.ftruncate _ _ _); done.
Qed.

(** [volume_close] closes the descriptor in the variable the name
    selects. *)
Lemma volume_close_eq :
  myvolume.name (ocf_volume.priv v) = Some name →
  volume_close volume st =
    Some (tt, set_os (Posix.close (backing_fd name st) (os st)).2
                (set_stdout (stdout st ++ [close_message name]) st)).
Proof.
  intros Hn.
  unfold volume_close, ocf_volume_get_priv, backing_fd.
  munfold. repeat (rewrite ?Hvol, ?Hn; simpl).
  destruct (decide (strcmp (ocf_volume.uuid v) "cache" = 0)) as [E|E];
    [apply strcmp_eq in E; rewrite !(decide_True _ _ E) in *
    |rewrite strcmp_eq in E; rewrite !(decide_False _ _ E) in *];
    simpl; destruct (Posix.close _ _); done.
Qed.
End open_close.

(** ** Transfers on an open volume *)

(** A write on an open volume puts the bytes of the window into the
    backing file at [io->addr]; nothing else changes but the output. *)
Lemma submit_write_open st io i v f written :
  ios st !! io = Some i →
  ocf_io.dir i = OCF_WRITE →
  volumes st !! ocf_io.volume i = Some v →
  myvolume.name (ocf_volume.priv v) = Some (ocf_volume.uuid v) →
  Posix.descriptor (os st) (backing_fd (ocf_volume.uuid v) st)
    = Some (Posix.DFile (backing_path (ocf_volume.uuid v))) →
  Posix.fs (os st) !! backing_path (ocf_volume.uuid v) = Some f →
  0 ≤ ocf_io.addr i < 2 ^ 63 →
  io_window st io = Some written →
  volume_submit_io io st =
    Some (tt, completed io 0 (ocf_volume.uuid v) i
      (set_os (Posix.set (<[backing_path (ocf_volume.uuid v) :=
                      Posix.file_write f (ocf_io.addr i) written]>
                    (Posix.fs (os st))) (Posix.fds (os st)) (os st)) st)).
Proof.
  intros Hio Hdir Hv Hname Hfd Hfs Haddr Hwin.
  unfold io_window in Hwin. rewrite Hio in Hwin. simpl in Hwin.
  destruct (datas st !! _) as [d|] eqn:Hd; [|done]. simpl in Hwin.
  destruct (bufs st !! _) as [b|] eqn:Hb; [|done]. simpl in Hwin.
  rewrite (volume_submit_io_write st io i v _ d b Hio Hv Hname Hd Hb written Hdir Hwin).
  unfold Posix.pwrite. rewrite Hfd, Hfs, to_off_t_small by done.
  rewrite decide_True by lia. done.
Qed.

(** A read on an open volume fills the window with the bytes of the
    backing file at [io->addr], when the file has that many. *)
Lemma submit_read_open st io i v f :
  ios st !! io = Some i →
  ocf_io.dir i ≠ OCF_WRITE →
  volumes st !! ocf_io.volume i = Some v →
  myvolume.name (ocf_volume.priv v) = Some (ocf_volume.uuid v) →
  Posix.descriptor (os st) (backing_fd (ocf_volume.uuid v) st)
    = Some (Posix.DFile (backing_path (ocf_volume.uuid v))) →
  Posix.fs (os st) !! backing_path (ocf_volume.uuid v) = Some f →
  0 ≤ ocf_io.addr i < 2 ^ 63 →
  is_Some (io_window st io) →
  Z.of_nat (length (Posix.file_read f (ocf_io.addr i) (ocf_io.bytes i)))
    = ocf_io.bytes i →
  ∃ st', volume_submit_io io st = Some (tt, st') ∧
         io_window st' io
           = Some (Posix.file_read f (ocf_io.addr i) (ocf_io.bytes i)) ∧
         os st' = os st.
Proof.
  intros Hio Hdir Hv Hname Hfd Hfs Haddr Hwin Hlen.
  unfold io_window in Hwin. rewrite Hio in Hwin. simpl in Hwin.
  destruct (datas st !! _) as [d|] eqn:Hd; [|by destruct Hwin]. simpl in Hwin.
  destruct (bufs st !! _) as [b|] eqn:Hb; [|by destruct Hwin]. simpl in Hwin.
  rewrite (volume_submit_io_read st io i v _ d b Hio Hv Hname Hd Hb Hdir Hwin).
  eexists. split; [done|]. split; [|done].
  unfold Posix.pread. rewrite Hfd, Hfs, to_off_t_small by done.
  rewrite decide_True by lia.
  unfold io_window. simpl. rewrite Hio. simpl. rewrite Hd. simpl.
  rewrite lookup_insert_eq. simpl.
  destruct Hwin as [w Hw]. unfold load in Hw. case_decide; [|done].
  rewrite <- Hlen at 2. apply load_store; lia.
Qed.

(** (C1) Round trip: on an open volume, a WRITE of [N] bytes at address
    [A], with [0 ≤ A] and [A + N ≤ VOL_SIZE], followed by a READ of [N]
    bytes at [A] leaves in the read window exactly the bytes that were in
    the write window. Anything may happen between the two, as long as the
    volume is open at the read and the range [A, A + N) of its backing
    file reads as it did after the write. *)
Theorem write_then_read_round_trip st wio w A N written :
  volume_is_open st (ocf_io.volume w) →
  ios st !! wio = Some w →
  ocf_io.dir w = OCF_WRITE → ocf_io.addr w = A → ocf_io.bytes w = N →
  0 ≤ A → A + N ≤ VOL_SIZE →
  io_window st wio = Some written →
  ∃ st1,
    volume_submit_io wio st = Some (tt, st1) ∧
    ∀ st' rio r,
      volume_range st' (ocf_io.volume w) A N
        = volume_range st1 (ocf_io.volume w) A N →
      volume_is_open st' (ocf_io.volume w) →
      ios st' !! rio = Some r →
      ocf_io.volume r = ocf_io.volume w →
      ocf_io.dir r = OCF_READ → ocf_io.addr r = A → ocf_io.bytes r = N →
      is_Some (io_window st' rio) →
      ∃ st2,
        volume_submit_io rio st' = Some (tt, st2) ∧
        io_window st2 rio = Some written.
Proof.
  intros (v & f & Hv & Hname & Hfd & Hfs) Hw Hdw Haw Hbw HA HAN Hwin.
  assert (Z.of_nat (length written) = N) as HN.
  { unfold io_window in Hwin. rewrite Hw in Hwin. simpl in Hwin.
    destruct (datas st !! _); [|done]. simpl in Hwin.
    destruct (bufs st !! _); [|done]. simpl in Hwin.
    apply load_length in Hwin. lia. }
  assert (0 ≤ A < 2 ^ 63) as HA63.
  { unfold VOL_SIZE in HAN. lia. }
  pose proof (submit_write_open st wio w v f written Hw Hdw Hv Hname Hfd Hfs)
    as Hs1.
  rewrite Haw in Hs1. specialize (Hs1 HA63 Hwin).
  set (st1 := completed _ _ _ _ _) in Hs1.
  exists st1. split; [done|].
  intros st' rio r Hrange (v' & f' & Hv' & Hname' & Hfd' & Hfs') Hr Hvol Hdr
    Har Hbr Hrwin.
  assert (Posix.file_read f' A N = written) as Hread.
  { unfold volume_range, backing_file in Hrange.
    rewrite Hv' in Hrange. simpl in Hrange. rewrite Hfs' in Hrange.
    subst st1. simpl in Hrange. rewrite Hv in Hrange. simpl in Hrange.
    rewrite lookup_insert_eq in Hrange. simpl in Hrange.
    injection Hrange as ->. rewrite <- HN. by apply file_read_write. }
  destruct (submit_read_open st' rio r v' f') as (st2 & Hs2 & Hwin2 & _).
  - done.
  - rewrite Hdr. done.
  - by rewrite Hvol.
  - done.
  - done.
  - done.
  - by rewrite Har.
  - done.
  - rewrite Har, Hbr, Hread. done.
  - exists st2. split; [done|]. by rewrite Hwin2, Har, Hbr, Hread.
Qed.

(** ** Opening and closing *)

Lemma filter_lt_empty len : filter (λ kv : Z * byte, kv.1 < len) (∅ : gmap Z byte) = ∅.
Proof. apply map_filter_empty. Qed.

Lemma lowest_free_from_ge t fuel : ∀ n, n ≤ Posix.lowest_free_from fuel n t.
Proof.
  induction fuel as [|k IH]; intros n; simpl; [lia|].
  destruct (t !! n); [|lia]. specialize (IH (n + 1)). lia.
Qed.

Lemma lowest_free_nonneg t : 0 ≤ Posix.lowest_free t.
Proof. apply lowest_free_from_ge. Qed.

Lemma lowest_free_from_fresh fuel : ∀ (n : Z) (t : gmap Z Posix.descr),
  (size (filter (λ kv : Z * Posix.descr, (n ≤ kv.1)%Z) t) ≤ fuel)%nat →
  t !! Posix.lowest_free_from fuel n t = None.
Proof.
  induction fuel as [|k IH]; intros n t Hsz; simpl.
  - destruct (t !! n) as [d|] eqn:E; [|done]. exfalso.
    assert (filter (λ kv : Z * Posix.descr, n ≤ kv.1) t !! n = Some d) as H.
    { apply map_lookup_filter_Some. split; [done|]. simpl. lia. }
    assert (size (filter (λ kv : Z * Posix.descr, n ≤ kv.1) t) = 0%nat) as H0
      by lia.
    apply map_size_empty_inv in H0. rewrite H0 in H.
    by rewrite lookup_empty in H.
  - destruct (t !! n) as [d|] eqn:E; [|done]. apply IH.
    assert (filter (λ kv : Z * Posix.descr, n + 1 ≤ kv.1) t
            = delete n (filter (λ kv : Z * Posix.descr, n ≤ kv.1) t)) as ->.
    { apply map_eq. intros i. apply option_eq. intros x.
      rewrite lookup_delete_Some, !map_lookup_filter_Some. simpl. split.
      - intros [Hx Hle]. split; [lia|]. split; [done|lia].
      - intros [Hne [Hx Hle]]. split; [done|lia]. }
    rewrite map_size_delete_Some; [lia|].
    exists d. apply map_lookup_filter_Some. split; [done|]. simpl. lia.
Qed.

(** The descriptor [open] returns was not open before. *)
Lemma lowest_free_fresh (t : gmap Z Posix.descr) :
  t !! Posix.lowest_free t = None.
Proof.
  apply lowest_free_from_fresh.
  apply map_subseteq_size, map_filter_subseteq.
Qed.

(** [open] leaves the descriptors that are open as they are. *)
Lemma open_keeps_descriptors path flags mode o fd d :
  Posix.descriptor o fd = Some d →
  Posix.descriptor (Posix.open path flags mode o).2 fd = Some d.
Proof.
  unfold Posix.descriptor, Posix.open. intros Hfd.
  destruct (decide (0 ≤ fd)); [|done].
  assert (Posix.lowest_free (Posix.fds o) ≠ fd) as Hne.
  { intros <-. by rewrite lowest_free_fresh in Hfd. }
  repeat case_match; simpl; rewrite ?decide_True by done;
    rewrite ?lookup_insert_ne by done; done.
Qed.

(** The descriptor [open] has just returned refers to the file opened. *)
Lemma descriptor_opened x t d o :
  Posix.descriptor (Posix.set x (<[Posix.lowest_free t := d]> t) o)
    (Posix.lowest_free t) = Some d.
Proof.
  unfold Posix.descriptor. rewrite decide_True by apply lowest_free_nonneg.
  apply lookup_insert_eq.
Qed.

Lemma open_existing_rw path o f :
  Posix.fs o !! path = Some f → Posix.f_rw f = true →
  Posix.open path Posix.O_RDWR MODE_0644 o =
    (Posix.lowest_free (Posix.fds o),
     Posix.set (Posix.fs o)
       (<[Posix.lowest_free (Posix.fds o) := Posix.DFile path]> (Posix.fds o))
       o).
Proof. intros Hf Hrw. unfold Posix.open. by rewrite Hf, Hrw. Qed.

Lemma open_existing_denied path flags mode o f :
  Posix.fs o !! path = Some f → Posix.f_rw f = false →
  Posix.open path flags mode o = (-1, o).
Proof. intros Hf Hrw. unfold Posix.open. by rewrite Hf, Hrw. Qed.

Lemma open_create path o :
  Posix.fs o !! path = None → Posix.dir_writable o = true →
  Posix.open path O_CREATE_FLAGS MODE_0644 o =
    (Posix.lowest_free (Posix.fds o),
     Posix.set (<[path := Posix.created_file MODE_0644 o]> (Posix.fs o))
       (<[Posix.lowest_free (Posix.fds o) := Posix.DFile path]> (Posix.fds o))
       o).
Proof. intros Hf Hc. unfold Posix.open. by rewrite Hf, Hc. Qed.

Lemma open_create_denied path flags mode o :
  Posix.fs o !! path = None → Posix.dir_writable o = false →
  Posix.open path flags mode o = (-1, o).
Proof.
  intros Hf Hc. unfold Posix.open. rewrite Hf, Hc.
  by destruct (Posix.has_flag _ _).
Qed.

(** [ftruncate] to [VOL_SIZE] on a file that has just been created, where
    the environment lets files be extended, and where it does not. *)
Lemma ftruncate_created path o fd rw :
  Posix.descriptor o fd = Some (Posix.DFile path) →
  Posix.fs o !! path = Some (Posix.File 0 ∅ rw) →
  Posix.extends o = true →
  Posix.ftruncate fd VOL_SIZE o =
    (0, Posix.set (<[path := Posix.File VOL_SIZE ∅ rw]> (Posix.fs o))
          (Posix.fds o) o).
Proof.
  intros Hfd Hf He. unfold Posix.ftruncate. rewrite Hfd, Hf, He.
  rewrite decide_True by (unfold VOL_SIZE; lia).
  rewrite andb_false_r. cbn [Posix.f_data Posix.f_rw].
  by rewrite filter_lt_empty.
Qed.

Lemma ftruncate_refused path o fd rw :
  Posix.descriptor o fd = Some (Posix.DFile path) →
  Posix.fs o !! path = Some (Posix.File 0 ∅ rw) →
  Posix.extends o = false →
  Posix.ftruncate fd VOL_SIZE o = (-1, o).
Proof.
  intros Hfd Hf He. unfold Posix.ftruncate. rewrite Hfd, Hf, He.
  rewrite decide_True by (unfold VOL_SIZE; lia).
  cbn [Posix.f_size]. by rewrite bool_decide_eq_true_2.
Qed.

(** Where the environment puts nothing in the way of a new file, a file
    created with mode 0644 may be opened read/write again. *)
Lemma can_create_true o :
  Posix.can_create o = true →
  Posix.dir_writable o = true ∧ Posix.extends o = true ∧
  Posix.f_rw (Posix.created_file MODE_0644 o) = true.
Proof.
  unfold Posix.can_create, Posix.created_file, Posix.owner_rw.
  cbn [Posix.f_rw]. rewrite !Z.land_spec.
  replace (Z.testbit MODE_0644 8) with true by reflexivity.
  replace (Z.testbit MODE_0644 7) with true by reflexivity.
  intros [[-> Hrw]%andb_true_iff ->]%andb_true_iff. done.
Qed.

(** Opening a volume whose backing file is there and may be opened
    read/write: the file system is left as it was and the volume is open. *)
Lemma volume_open_attaches st volume params v f :
  volumes st !! volume = Some v →
  Posix.fs (os st) !! backing_path (ocf_volume.uuid v) = Some f →
  Posix.f_rw f = true →
  ∃ st', volume_open volume params st = Some (0, st') ∧
         volume_is_open st' volume ∧
         Posix.fs (os st') = Posix.fs (os st) ∧
         volumes st' = volumes (named volume v st) ∧
         ios st' = ios st ∧ datas st' = datas st ∧ bufs st' = bufs st.
Proof.
  intros Hv Hf Hrw.
  rewrite (volume_open_existing st volume params v Hv) by eauto.
  rewrite (open_existing_rw _ _ f) by done. cbn [fst snd].
  eexists. split; [done|]. split.
  - exists (ocf_volume.mk (ocf_volume.uuid v) (myvolume.mk (Some (ocf_volume.uuid v)))), f.
    unfold set_backing_fd, backing_fd. cbn [ocf_volume.uuid].
    destruct (decide (ocf_volume.uuid v = "cache")) as [E|E];
      cbn -[Posix.lowest_free Posix.descriptor Posix.set];
      rewrite lookup_insert_eq, descriptor_opened; done.
  - unfold set_backing_fd. case_decide; done.
Qed.

(** Opening a volume whose backing file is missing, where files may be
    created and extended: the file is created with [VOL_SIZE] bytes, all
    of them holes, and the volume is open. *)
Lemma volume_open_provides st volume params v :
  volumes st !! volume = Some v →
  Posix.fs (os st) !! backing_path (ocf_volume.uuid v) = None →
  Posix.dir_writable (os st) = true →
  Posix.extends (os st) = true →
  ∃ st', volume_open volume params st = Some (0, st') ∧
         volume_is_open st' volume ∧
         Posix.fs (os st') =
           <[backing_path (ocf_volume.uuid v) :=
               Posix.File VOL_SIZE ∅
                 (Posix.f_rw (Posix.created_file MODE_0644 (os st)))]>
             (Posix.fs (os st)) ∧
         volumes st' = volumes (named volume v st) ∧
         ios st' = ios st ∧ datas st' = datas st ∧ bufs st' = bufs st.
Proof.
  intros Hv Hf Hc He.
  rewrite (volume_open_missing st volume params v Hv) by done.
  rewrite open_create by done. cbn [fst snd].
  rewrite (ftruncate_created (backing_path (ocf_volume.uuid v)) _ _
             (Posix.f_rw (Posix.created_file MODE_0644 (os st))))
    by (apply descriptor_opened || apply lookup_insert_eq || done).
  cbn [snd]. unfold Posix.set at 1. cbn [Posix.fs Posix.fds Posix.set].
  rewrite insert_insert_eq.
  eexists. split; [done|]. split.
  - exists (ocf_volume.mk (ocf_volume.uuid v) (myvolume.mk (Some (ocf_volume.uuid v)))).
    eexists.
    unfold set_backing_fd, backing_fd. cbn [ocf_volume.uuid].
    destruct (decide (ocf_volume.uuid v = "cache")) as [E|E];
      cbn -[Posix.lowest_free Posix.descriptor VOL_SIZE Posix.set];
      rewrite ?lookup_insert_eq;
      (split; [done|]); (split; [done|]);
      (split; [apply (descriptor_opened _ _ _ (os st))
              |cbn -[VOL_SIZE]; rewrite ?lookup_insert_eq; reflexivity]).
  - unfold set_backing_fd. case_decide; done.
Qed.

Lemma volume_open_creates st volume params v :
  volumes st !! volume = Some v →
  Posix.fs (os st) !! backing_path (ocf_volume.uuid v) = None →
  Posix.can_create (os st) = true →
  ∃ st', volume_open volume params st = Some (0, st') ∧
         volume_is_open st' volume ∧
         Posix.fs (os st') =
           <[backing_path (ocf_volume.uuid v) := Posix.File VOL_SIZE ∅ true]>
             (Posix.fs (os st)) ∧
         volumes st' = volumes (named volume v st) ∧
         ios st' = ios st ∧ datas st' = datas st ∧ bufs st' = bufs st.
Proof.
  intros Hv Hf (Hc & He & Hrw)%can_create_true.
  destruct (volume_open_provides st volume params v Hv Hf Hc He) as (st' & H).
  rewrite Hrw in H. by exists st'.
Qed.

(** Opening a volume whose backing file is missing, where a file can be
    created but not extended: [ftruncate] fails, the file stays empty,
    and the volume is open on it all the same. *)
Lemma volume_open_unextended st volume params v :
  volumes st !! volume = Some v →
  Posix.fs (os st) !! backing_path (ocf_volume.uuid v) = None →
  Posix.dir_writable (os st) = true →
  Posix.extends (os st) = false →
  ∃ st', volume_open volume params st = Some (0, st') ∧
         volume_is_open st' volume ∧
         Posix.fs (os st') =
           <[backing_path (ocf_volume.uuid v) :=
               Posix.created_file MODE_0644 (os st)]> (Posix.fs (os st)) ∧
         volumes st' = volumes (named volume v st) ∧
         ios st' = ios st ∧ datas st' = datas st ∧ bufs st' = bufs st.
Proof.
  intros Hv Hf Hc He.
  rewrite (volume_open_missing st volume params v Hv) by done.
  rewrite open_create by done. cbn [fst snd].
  rewrite (ftruncate_refused (backing_path (ocf_volume.uuid v)) _ _
             (Posix.f_rw (Posix.created_file MODE_0644 (os st))))
    by (apply descriptor_opened || apply lookup_insert_eq || done).
  cbn [snd].
  eexists. split; [done|]. split.
  - exists (ocf_volume.mk (ocf_volume.uuid v) (myvolume.mk (Some (ocf_volume.uuid v)))).
    eexists.
    unfold set_backing_fd, backing_fd. cbn [ocf_volume.uuid].
    destruct (decide (ocf_volume.uuid v = "cache")) as [E|E];
      cbn -[Posix.lowest_free Posix.descriptor Posix.set];
      rewrite ?lookup_insert_eq;
      (split; [done|]); (split; [done|]);
      (split; [apply (descriptor_opened _ _ _ (os st))
              |cbn; rewrite ?lookup_insert_eq; reflexivity]).
  - unfold set_backing_fd. case_decide; done.
Qed.

Lemma descriptor_kept x t d o fd d' :
  Posix.descriptor o fd = Some d' → t = Posix.fds o →
  Posix.descriptor (Posix.set x (<[Posix.lowest_free t := d]> t) o) fd
    = Some d'.
Proof.
  unfold Posix.descriptor. cbn [Posix.fds Posix.set]. intros H ->.
  case_decide; [|done].
  rewrite lookup_insert_ne; [done|].
  intros <-. by rewrite lowest_free_fresh in H.
Qed.

Lemma descriptor_closed x t fd o :
  Posix.descriptor (Posix.set x (delete fd t) o) fd = None.
Proof.
  unfold Posix.descriptor. case_decide; [|done]. apply lookup_delete_eq.
Qed.

Lemma ftruncate_bad o len : Posix.ftruncate (-1) len o = (-1, o).
Proof. done. Qed.

(** When the backing file cannot be attached, [volume_open] still returns
    0; the descriptor variable holds -1 and the operating system's state
    is what it was. *)
Lemma volume_open_fails st volume params v :
  volumes st !! volume = Some v →
  cannot_attach st (ocf_volume.uuid v) →
  ∃ st', volume_open volume params st = Some (0, st') ∧
         backing_fd (ocf_volume.uuid v) st' = -1 ∧
         os st' = os st.
Proof.
  intros Hv Hc. unfold cannot_attach, backing_file in Hc.
  destruct (Posix.fs (os st) !! backing_path (ocf_volume.uuid v))
    as [f|] eqn:Hf.
  - rewrite (volume_open_existing st volume params v Hv) by eauto.
    rewrite (open_existing_denied _ _ _ _ f) by done. cbn [fst snd].
    eexists. split; [done|]. split.
    + unfold set_backing_fd, backing_fd. by case_decide.
    + unfold set_backing_fd. by case_decide.
  - rewrite (volume_open_missing st volume params v Hv) by done.
    rewrite open_create_denied by done. cbn [fst snd].
    rewrite ftruncate_bad. cbn [snd].
    eexists. split; [done|]. split.
    + unfold set_backing_fd, backing_fd. by case_decide.
    + unfold set_backing_fd. by case_decide.
Qed.

(** The state [volume_open] leaves, in all cases: the name recorded, -1
    or a new descriptor of the backing file in the variable the name
    selects, and an operating system's state that differs from the one
    before at most in the backing file of the name and in that one more
    open descriptor. *)
Lemma volume_open_state st volume params v :
  volumes st !! volume = Some v →
  ∃ fd o,
    volume_open volume params st =
      Some (0, set_stdout (stdout st ++ [open_message (ocf_volume.uuid v)])
                 (set_backing_fd (ocf_volume.uuid v) fd
                    (set_os o (named volume v st)))) ∧
    (∀ q, q ≠ backing_path (ocf_volume.uuid v) →
          Posix.fs o !! q = Posix.fs (os st) !! q) ∧
    (∀ fd' d, Posix.descriptor (os st) fd' = Some d →
              Posix.descriptor o fd' = Some d) ∧
    (fd = -1 ∨
     Posix.descriptor o fd
       = Some (Posix.DFile (backing_path (ocf_volume.uuid v)))).
Proof.
  intros Hv.
  destruct (Posix.fs (os st) !! backing_path (ocf_volume.uuid v))
    as [f|] eqn:Hf; [destruct (Posix.f_rw f) eqn:Hrw
                    |destruct (Posix.dir_writable (os st)) eqn:Hc;
                     [destruct (Posix.extends (os st)) eqn:He|]].
  - rewrite (volume_open_existing st volume params v Hv) by eauto.
    rewrite (open_existing_rw _ _ f) by done. cbn [fst snd].
    eexists _, _. split; [reflexivity|]. split; [done|]. split.
    + intros fd' d Hd. by apply descriptor_kept.
    + right. apply descriptor_opened.
  - rewrite (volume_open_existing st volume params v Hv) by eauto.
    rewrite (open_existing_denied _ _ _ _ f) by done. cbn [fst snd].
    eexists _, _. split; [reflexivity|]. split; [done|]. split; [done|].
    by left.
  - rewrite (volume_open_missing st volume params v Hv) by done.
    rewrite open_create by done. cbn [fst snd].
    rewrite (ftruncate_created (backing_path (ocf_volume.uuid v)) _ _
               (Posix.f_rw (Posix.created_file MODE_0644 (os st))))
      by (apply descriptor_opened || apply lookup_insert_eq || done).
    cbn [snd].
    eexists _, _. split.
    { unfold set_backing_fd. case_decide; reflexivity. }
    split; [|split].
    + intros q Hq. cbn [Posix.fs Posix.set]. by rewrite !lookup_insert_ne.
    + intros fd' d Hd. cbn [Posix.fs Posix.fds Posix.set].
      by apply (descriptor_kept _ _ _ (os st)).
    + right. cbn [Posix.fs Posix.fds Posix.set].
      apply (descriptor_opened _ _ _ (os st)).
  - rewrite (volume_open_missing st volume params v Hv) by done.
    rewrite open_create by done. cbn [fst snd].
    rewrite (ftruncate_refused (backing_path (ocf_volume.uuid v)) _ _
               (Posix.f_rw (Posix.created_file MODE_0644 (os st))))
      by (apply descriptor_opened || apply lookup_insert_eq || done).
    cbn [snd].
    eexists _, _. split.
    { unfold set_backing_fd. case_decide; reflexivity. }
    split; [|split].
    + intros q Hq. cbn [Posix.fs Posix.set]. by rewrite !lookup_insert_ne.
    + intros fd' d Hd. by apply descriptor_kept.
    + right. apply descriptor_opened.
  - rewrite (volume_open_missing st volume params v Hv) by done.
    rewrite open_create_denied by done. cbn [fst snd].
    rewrite ftruncate_bad. cbn [snd].
    eexists _, _. split.
    { unfold set_backing_fd. case_decide; reflexivity. }
    split; [done|]. split; [done|]. by left.
Qed.

(** The state [volume_close] leaves for a volume whose descriptor
    variable holds an open descriptor. *)
Lemma volume_close_state st volume v :
  volumes st !! volume = Some v →
  myvolume.name (ocf_volume.priv v) = Some (ocf_volume.uuid v) →
  is_Some (Posix.descriptor (os st) (backing_fd (ocf_volume.uuid v) st)) →
  volume_close volume st =
    Some (tt, set_os (Posix.set (Posix.fs (os st))
                        (delete (backing_fd (ocf_volume.uuid v) st)
                           (Posix.fds (os st)))
                        (os st))
                (set_stdout (stdout st ++ [close_message (ocf_volume.uuid v)])
                   st)).
Proof.
  intros Hv Hname [x Hfd].
  rewrite (volume_close_eq st volume v Hv Hname).
  unfold Posix.close. by rewrite Hfd.
Qed.



(** ** The memoised probe *)

Section keeps.
Context {A B : Type}.

Lemma keeps_ret (a : A) : keeps (mret a).
Proof. intros st a' st' [= _ <-]. done. Qed.

Lemma keeps_bind (m : M A) (k : A → M B) :
  keeps m → (∀ a, keeps (k a)) → keeps (m ≫= k).
Proof.
  intros Hm Hk st b st'. unfold mbind, M_bind.
  destruct (m st) as [[a st1]|] eqn:E; [|done].
  intros Hb. rewrite (Hk a _ _ _ Hb). eauto.
Qed.

Lemma keeps_undefined : keeps (@undefined A).
Proof. by intros st a st'. Qed.

Lemma keeps_gets (f : state → A) : keeps (gets f).
Proof. intros st a st' [= _ <-]. done. Qed.

Lemma keeps_deref (heap : state → gmap Z A) p : keeps (deref heap p).
Proof.
  intros st a st'. unfold deref. destruct (heap st !! p); [|done].
  intros [= _ <-]. done.
Qed.

Lemma keeps_syscall (f : Posix.os_state → A * Posix.os_state) : keeps (syscall f).
Proof.
  intros st a st'. unfold syscall. destruct (f (os st)).
  intros [= _ <-]. done.
Qed.

Lemma keeps_sysquery (f : Posix.os_state → A) : keeps (sysquery f).
Proof. intros st a st' [= _ <-]. done. Qed.
End keeps.

Lemma keeps_modify (f : state → state) :
  (∀ st, need_reload (f st) = need_reload st) → keeps (modify f).
Proof. intros Hf st a st' [= _ <-]. apply Hf. Qed.

Create HintDb keeps.
#[local] Hint Resolve keeps_ret keeps_undefined keeps_gets keeps_deref
  keeps_syscall keeps_sysquery : keeps.

Ltac keeps_step :=
  first
    [ apply keeps_bind; [|intros ?]
    | apply keeps_modify; intros ?; unfold set_backing_fd; try case_decide; reflexivity
    | solve [auto with keeps]
    | case_decide
    | case_match ].

Ltac keeps_tac := repeat keeps_step.

Lemma keeps_printf fmt args : keeps (printf fmt args).
Proof. unfold printf. keeps_tac. Qed.

Lemma keeps_io_end io status : keeps (io_end io status).
Proof. unfold io_end. keeps_tac. Qed.

Lemma keeps_read_mem p off n : keeps (read_mem p off n).
Proof. unfold read_mem. keeps_tac. Qed.

Lemma keeps_write_mem p off n bs : keeps (write_mem p off n bs).
Proof. unfold write_mem. keeps_tac. Qed.

Lemma keeps_c_str s : keeps (c_str s).
Proof. unfold c_str. keeps_tac. Qed.

#[local] Hint Resolve keeps_printf keeps_io_end keeps_read_mem keeps_write_mem
  keeps_c_str : keeps.

Lemma keeps_volume_open volume params : keeps (volume_open volume params).
Proof.
  unfold volume_open, set_myvolume_name, ocf_volume_get_uuid,
    ocf_volume_get_priv.
  keeps_tac.
Qed.

Lemma keeps_volume_close volume : keeps (volume_close volume).
Proof. unfold volume_close, ocf_volume_get_priv. keeps_tac. Qed.

Lemma keeps_volume_submit_io io : keeps (volume_submit_io io).
Proof.
  unfold volume_submit_io, ocf_io_get_data, myvolume_io_get_data,
    ocf_io_get_priv, ocf_io_get_volume, ocf_volume_get_priv, submit_pwrite,
    submit_pread.
  keeps_tac.
Qed.

Lemma keeps_set_data io data offset : keeps (myvolume_io_set_data io data offset).
Proof. unfold myvolume_io_set_data, ocf_io_get_priv. keeps_tac. Qed.

Lemma keeps_get_data io : keeps (myvolume_io_get_data io).
Proof. unfold myvolume_io_get_data, ocf_io_get_priv. keeps_tac. Qed.

(** Once the flag is set, a further call of [need_reload_cache] returns
    it and changes nothing. *)
Lemma need_reload_cache_set st :
  need_reload st ≠ -1 →
  need_reload_cache st = Some (to_bool (need_reload st), st).
Proof.
  intros H. unfold need_reload_cache. munfold. by rewrite decide_True.
Qed.

(** The first call probes the file system and sets the flag to 0 or 1. *)
Lemma need_reload_cache_first st :
  need_reload st = -1 →
  need_reload_cache st =
    Some (bool_decide (is_Some (Posix.fs (os st) !! cache_path)),
          set_need_reload
            (if bool_decide (is_Some (Posix.fs (os st) !! cache_path))
             then 1 else 0) st).
Proof.
  intros H. unfold need_reload_cache. munfold. rewrite H. simpl.
  unfold Posix.access. destruct (Posix.fs (os st) !! cache_path); done.
Qed.

(** Every event leaves a flag that is set as it is. *)
Lemma step_keeps_set e st st' :
  need_reload st ≠ -1 → step e st = Some (tt, st') →
  need_reload st' = need_reload st.
Proof.
  intros Hset. destruct e as [c|o|vs rs ds bs]; simpl.
  - destruct c; simpl.
    + apply keeps_bind; [apply keeps_volume_open|auto with keeps].
    + apply keeps_volume_close.
    + apply keeps_volume_submit_io.
    + apply keeps_io_end.
    + apply keeps_io_end.
    + apply keeps_bind; [apply keeps_set_data|auto with keeps].
    + apply keeps_bind; [apply keeps_get_data|auto with keeps].
    + unfold mbind, M_bind. rewrite need_reload_cache_set by done.
      by intros [= <-].
  - by intros [= <-].
  - by intros [= <-].
Qed.

(** Every event other than a call of [need_reload_cache] leaves the flag
    as it is, set or not. *)
Lemma step_keeps_quiet e st st' :
  is_probe e = false → step e st = Some (tt, st') →
  need_reload st' = need_reload st.
Proof.
  intros Hq. destruct e as [c|o|vs rs ds bs]; simpl.
  - destruct c; simpl; try done.
    + apply keeps_bind; [apply keeps_volume_open|auto with keeps].
    + apply keeps_volume_close.
    + apply keeps_volume_submit_io.
    + apply keeps_io_end.
    + apply keeps_io_end.
    + apply keeps_bind; [apply keeps_set_data|auto with keeps].
    + apply keeps_bind; [apply keeps_get_data|auto with keeps].
  - by intros [= <-].
  - by intros [= <-].
Qed.

Lemma run_keeps_set es : ∀ st st',
  need_reload st ≠ -1 → run es st = Some (tt, st') →
  need_reload st' = need_reload st.
Proof.
  induction es as [|e es IH]; intros st st' Hset; simpl.
  - by intros [= <-].
  - unfold mbind, M_bind. destruct (step e st) as [[[] st1]|] eqn:E; [|done].
    intros Hrun. pose proof (step_keeps_set _ _ _ Hset E) as H1.
    rewrite (IH st1 st') by (done || congruence). done.
Qed.

Lemma run_keeps_quiet es : ∀ st st',
  forallb (λ e, negb (is_probe e)) es = true →
  run es st = Some (tt, st') →
  need_reload st' = need_reload st.
Proof.
  induction es as [|e es IH]; intros st st'; simpl.
  - by intros _ [= <-].
  - intros [Hq Hqs]%andb_true_iff. apply negb_true_iff in Hq.
    unfold mbind, M_bind. destruct (step e st) as [[[] st1]|] eqn:E; [|done].
    intros Hrun. rewrite (IH st1 st') by done.
    by apply (step_keeps_quiet e).
Qed.

(** (C6, as amended) [need_reload_cache] is memoised by its first call:
    in a process that has not called it yet, it returns whether the cache
    file exists at the time of that call; every later call of the process
    returns the same value without probing again and without changing the
    state, whatever happened in between (calls into the backend, files
    created or deleted by the environment). *)
Theorem need_reload_cache_memoised o vs rs ds bs es st :
  run es (process_start o vs rs ds bs) = Some (tt, st) →
  forallb (λ e, negb (is_probe e)) es = true →
  ∃ st1,
    need_reload_cache st =
      Some (bool_decide (is_Some (Posix.fs (os st) !! cache_path)), st1) ∧
    ∀ es' st2, run es' st1 = Some (tt, st2) →
      need_reload_cache st2 =
        Some (bool_decide (is_Some (Posix.fs (os st) !! cache_path)), st2).
Proof.
  intros Hrun Hquiet.
  assert (need_reload st = -1) as Hunset.
  { by rewrite (run_keeps_quiet es _ st Hquiet Hrun). }
  rewrite (need_reload_cache_first st Hunset).
  eexists. split; [done|]. intros es' st2 Hrun2.
  generalize dependent (bool_decide (is_Some (Posix.fs (os st) !! cache_path))).
  intros b Hrun2.
  assert (need_reload (set_need_reload (if b then 1 else 0) st) ≠ -1) as Hne.
  { simpl. by destruct b. }
  pose proof (run_keeps_set es' _ st2 Hne Hrun2) as Hset. simpl in Hset.
  rewrite need_reload_cache_set by (rewrite Hset; by destruct b).
  rewrite Hset. by destruct b.
Qed.

Lemma need_reload_cache_memoised_witness :
  ∃ st1,
    need_reload_cache st_opened = Some (true, st1) ∧
    ∀ es' st2, run es' st1 = Some (tt, st2) →
      need_reload_cache st2 = Some (true, st2).
Proof.
  apply (need_reload_cache_memoised os_fresh two_volumes two_requests
           two_datas two_buffers [Ev_call (Call_volume_open 1 0)] st_opened);
    reflexivity.
Defined.

(** (C6, as stated) In a fresh environment, where the cache file does not
    exist when the process starts, [need_reload_cache] returns true when
    its first call comes after the cache volume has been opened. *)
Lemma need_reload_cache_true_on_fresh_start :
  Posix.fs (os st_fresh) !! cache_path = None ∧
  ∃ st st',
    run [Ev_call (Call_volume_open 1 0)] st_fresh = Some (tt, st) ∧
    need_reload_cache st = Some (true, st').
Proof. split; [reflexivity|]. eexists _, _. split; reflexivity. Qed.

(** ** Failing system calls *)

(** (C4, as amended) [volume_open] returns 0 for every volume, whatever
    [open] and [ftruncate] have returned. When the backing file can be
    neither opened nor created, the descriptor variable of the volume
    holds -1 and the operating system's state is what it was. When the
    backing file is created but cannot be extended, the volume is open
    with a valid descriptor, and its backing file is the new file, left
    with size 0 instead of [VOL_SIZE]. *)
Theorem volume_open_always_returns_0 st volume params v :
  volumes st !! volume = Some v →
  ∃ st', volume_open volume params st = Some (0, st') ∧
         (cannot_attach st (ocf_volume.uuid v) →
          backing_fd (ocf_volume.uuid v) st' = -1 ∧ os st' = os st) ∧
         (cannot_extend st (ocf_volume.uuid v) →
          volume_is_open st' volume ∧
          0 ≤ backing_fd (ocf_volume.uuid v) st' ∧
          Posix.fs (os st') =
            <[backing_path (ocf_volume.uuid v) :=
                Posix.File 0 ∅
                  (Posix.f_rw (Posix.created_file MODE_0644 (os st)))]>
              (Posix.fs (os st))).
Proof.
  intros Hv. unfold cannot_attach, cannot_extend, backing_file.
  destruct (Posix.fs (os st) !! backing_path (ocf_volume.uuid v))
    as [f|] eqn:Hf.
  - destruct (Posix.f_rw f) eqn:Hrw.
    + destruct (volume_open_attaches st volume params v f Hv Hf Hrw)
        as (st' & Hs & _).
      exists st'. split; [done|]. split; [done|]. by intros [? _].
    + destruct (volume_open_fails st volume params v Hv) as (st' & Hs & H).
      { unfold cannot_attach, backing_file. by rewrite Hf. }
      exists st'. split; [done|]. split; [done|]. by intros [? _].
  - destruct (Posix.dir_writable (os st)) eqn:Hc.
    + destruct (Posix.extends (os st)) eqn:He.
      * destruct (volume_open_provides st volume params v Hv Hf Hc He)
          as (st' & Hs & _).
        exists st'. split; [done|]. split; [done|]. by intros (_ & _ & ?).
      * destruct (volume_open_unextended st volume params v Hv Hf Hc He)
          as (st' & Hs & Ho & Hfs & Hvs & _).
        exists st'. split; [done|]. split; [done|]. intros _.
        split; [done|]. split; [|done].
        destruct Ho as (v' & f' & Hv' & _ & Hfd & _).
        rewrite Hvs in Hv'. cbn in Hv'. rewrite lookup_insert_eq in Hv'.
        injection Hv' as <-. cbn [ocf_volume.uuid] in Hfd.
        unfold Posix.descriptor in Hfd. by case_decide.
    + destruct (volume_open_fails st volume params v Hv) as (st' & Hs & H).
      { unfold cannot_attach, backing_file. by rewrite Hf. }
      exists st'. split; [done|]. split; [done|]. by intros (_ & ? & _).
Qed.

Lemma volume_open_always_returns_0_witness :
  (∃ st', volume_open 1 0 st_denied = Some (0, st') ∧
          backing_fd "cache" st' = -1 ∧ os st' = os st_denied) ∧
  (∃ st', volume_open 1 0 st_full = Some (0, st') ∧
          volume_is_open st' 1 ∧
          0 ≤ backing_fd "cache" st' ∧
          Posix.fs (os st') =
            <["cache" := Posix.File 0 ∅ true]> (Posix.fs (os st_full))).
Proof.
  split.
  - destruct (volume_open_always_returns_0 st_denied 1 0
                (ocf_volume.mk "cache" (myvolume.mk None)) eq_refl)
      as (st' & Hs & Ha & _).
    exists st'. split; [exact Hs|]. apply Ha. reflexivity.
  - destruct (volume_open_always_returns_0 st_full 1 0
                (ocf_volume.mk "cache" (myvolume.mk None)) eq_refl)
      as (st' & Hs & _ & He).
    exists st'. split; [exact Hs|]. apply He. repeat split; reflexivity.
Defined.

(** (C4, as stated) The cache file is there but may not be opened
    read/write: [open] fails, and [volume_open] returns 0 all the same,
    with no valid descriptor obtained. *)
Lemma volume_open_reports_no_failure :
  Posix.open cache_path Posix.O_RDWR MODE_0644 (os st_denied)
    = (-1, os st_denied) ∧
  ∃ st', volume_open 1 0 st_denied = Some (0, st') ∧
         cache_fd st' = -1 ∧
         Posix.descriptor (os st') (cache_fd st') = None ∧
         ¬ volume_is_open st' 1.
Proof.
  split; [reflexivity|]. exists (after (volume_open 1 0) st_denied).
  split; [reflexivity|]. split; [reflexivity|]. split; [reflexivity|].
  intros (v & f & Hv & _ & Hfd & _). vm_compute in Hv.
  injection Hv as <-. vm_compute in Hfd. discriminate.
Qed.

(** ** Instances on the concrete scenarios *)

Lemma st_opened_is_open : volume_is_open st_opened 1.
Proof.
  exists (ocf_volume.mk "cache" (myvolume.mk (Some "cache"))),
         (Posix.File VOL_SIZE ∅ true).
  repeat split; reflexivity.
Defined.

Lemma write_then_read_round_trip_witness :
  ∃ st1 st2,
    volume_submit_io 10 st_opened = Some (tt, st1) ∧
    volume_submit_io 11 st1 = Some (tt, st2) ∧
    io_window st2 11 = Some [Byte.x03; Byte.x04; Byte.x05; Byte.x06].
Proof.
  destruct (write_then_read_round_trip st_opened 10
              (ocf_io.mk OCF_WRITE 4096 4 1 (myvolume_io.mk 100 0))
              4096 4 [Byte.x03; Byte.x04; Byte.x05; Byte.x06])
    as (st1 & Hs1 & Hread); try reflexivity.
  - exact st_opened_is_open.
  - lia.
  - unfold VOL_SIZE. lia.
  - destruct (Hread st1 11 (ocf_io.mk OCF_READ 4096 4 1 (myvolume_io.mk 101 0)))
      as (st2 & Hs2 & Hwin); try reflexivity.
    + vm_compute in Hs1. injection Hs1 as <-.
      exists (ocf_volume.mk "cache" (myvolume.mk (Some "cache"))).
      eexists. repeat split; reflexivity.
    + vm_compute in Hs1. injection Hs1 as <-. reflexivity.
    + vm_compute in Hs1. injection Hs1 as <-.
      exists [Byte.xff; Byte.xff; Byte.xff; Byte.xff]. reflexivity.
    + exists st1, st2. done.
Defined.



(** ** Completion *)


(** Both no-op submissions are [io_end io 0]. *)
Lemma flush_and_discard_only_complete_aux st io i :
  ios st !! io = Some i →
  volume_submit_flush io st
    = Some (tt, set_completions (completions st ++ [(io, 0)]) st) ∧
  volume_submit_discard io st
    = Some (tt, set_completions (completions st ++ [(io, 0)]) st).
Proof.
  intros Hi. unfold volume_submit_flush, volume_submit_discard. munfold.
  by rewrite Hi.
Qed.

(** (C9) [volume_submit_flush] and [volume_submit_discard] complete the
    request once, with status 0, and change nothing else: the operating
    system's state (every byte of every file) and the caller's data and
    buffers are what they were. *)
Theorem flush_and_discard_only_complete st io :
  is_Some (ios st !! io) →
  (∃ st', volume_submit_flush io st = Some (tt, st') ∧
          completions st' = completions st ++ [(io, 0)] ∧
          os st' = os st ∧ datas st' = datas st ∧ bufs st' = bufs st) ∧
  (∃ st', volume_submit_discard io st = Some (tt, st') ∧
          completions st' = completions st ++ [(io, 0)] ∧
          os st' = os st ∧ datas st' = datas st ∧ bufs st' = bufs st).
Proof.
  intros [i Hi].
  destruct (flush_and_discard_only_complete_aux st io i Hi) as [Hf Hd].
  rewrite Hf, Hd. split; eexists; (split; [reflexivity|]); done.
Qed.

Lemma flush_and_discard_only_complete_witness :
  (∃ st', volume_submit_flush 10 st_opened = Some (tt, st') ∧
          completions st' = completions st_opened ++ [(10, 0)] ∧
          os st' = os st_opened ∧ datas st' = datas st_opened ∧
          bufs st' = bufs st_opened) ∧
  (∃ st', volume_submit_discard 10 st_opened = Some (tt, st') ∧
          completions st' = completions st_opened ++ [(10, 0)] ∧
          os st' = os st_opened ∧ datas st' = datas st_opened ∧
          bufs st' = bufs st_opened).
Proof.
  apply (flush_and_discard_only_complete st_opened 10).
  exists (ocf_io.mk OCF_WRITE 4096 4 1 (myvolume_io.mk 100 0)). reflexivity.
Defined.

(** (C3, as amended) Every request that is ready, whether submitted for
    a read or a write, a flush or a discard, is completed exactly once,
    and always with status 0: the results of [pread] and [pwrite] are not
    inspected, so a failed transfer is completed with status 0 as well. *)
Theorem every_request_completes_once_with_status_0 st io :
  request_ready st io →
  (∃ st', volume_submit_io io st = Some (tt, st') ∧
          completions st' = completions st ++ [(io, 0)]) ∧
  (∃ st', volume_submit_flush io st = Some (tt, st') ∧
          completions st' = completions st ++ [(io, 0)]) ∧
  (∃ st', volume_submit_discard io st = Some (tt, st') ∧
          completions st' = completions st ++ [(io, 0)]).
Proof.
  intros (i & v & name & Hi & Hv & Hname & Hwin).
  split; [|split].
  - pose proof Hwin as Hwin'.
    unfold io_window in Hwin. rewrite Hi in Hwin. simpl in Hwin.
    destruct (datas st !! _) as [d|] eqn:Hd; [|by destruct Hwin].
    simpl in Hwin.
    destruct (bufs st !! _) as [b|] eqn:Hb; [|by destruct Hwin].
    simpl in Hwin.
    destruct (decide (ocf_io.dir i = OCF_WRITE)) as [Hdir|Hdir].
    + destruct Hwin as [bs Hbs].
      rewrite (volume_submit_io_write st io i v name d b Hi Hv Hname Hd Hb bs Hdir Hbs).
      eexists. split; [reflexivity|]. done.
    + rewrite (volume_submit_io_read st io i v name d b Hi Hv Hname Hd Hb Hdir Hwin).
      eexists. split; [reflexivity|]. done.
  - destruct (flush_and_discard_only_complete_aux st io i Hi) as [H _].
    rewrite H. eexists. split; [reflexivity|]. done.
  - destruct (flush_and_discard_only_complete_aux st io i Hi) as [_ H].
    rewrite H. eexists. split; [reflexivity|]. done.
Qed.

Lemma every_request_completes_once_with_status_0_witness :
  (∃ st', volume_submit_io 10 st_refused = Some (tt, st') ∧
          completions st' = completions st_refused ++ [(10, 0)]) ∧
  (∃ st', volume_submit_flush 10 st_refused = Some (tt, st') ∧
          completions st' = completions st_refused ++ [(10, 0)]) ∧
  (∃ st', volume_submit_discard 10 st_refused = Some (tt, st') ∧
          completions st' = completions st_refused ++ [(10, 0)]).
Proof.
  apply (every_request_completes_once_with_status_0 st_refused 10).
  exists (ocf_io.mk OCF_WRITE 4096 4 1 (myvolume_io.mk 100 0)),
         (ocf_volume.mk "cache" (myvolume.mk (Some "cache"))), "cache".
  repeat split; try reflexivity.
  exists [Byte.x03; Byte.x04; Byte.x05; Byte.x06]. reflexivity.
Defined.

(** (C3, as stated) On the volume whose [open] has failed, the [pwrite]
    of a write request and the [pread] of a read request fail (they
    return -1, no byte is transferred), and each of the two requests is
    completed with status 0. *)
Lemma failed_transfer_is_completed_with_status_0 :
  (Posix.pwrite (cache_fd st_refused)
     [Byte.x03; Byte.x04; Byte.x05; Byte.x06] 4096 (os st_refused)).1 = -1 ∧
  (Posix.pread (cache_fd st_refused) 4 4096 (os st_refused)).1 = -1 ∧
  (∃ st', volume_submit_io 10 st_refused = Some (tt, st') ∧
          completions st' = [(10, 0)] ∧
          os st' = os st_refused) ∧
  (∃ st', volume_submit_io 11 st_refused = Some (tt, st') ∧
          completions st' = [(11, 0)] ∧
          bufs st' = bufs st_refused).
Proof.
  split; [reflexivity|]. split; [reflexivity|]. split.
  - exists (after (volume_submit_io 10) st_refused). repeat split; reflexivity.
  - exists (after (volume_submit_io 11) st_refused). repeat split; reflexivity.
Qed.

(** ** Binding data to a request *)

(** (C10, as amended) After [myvolume_io_set_data io data offset],
    [myvolume_io_get_data io] returns the buffer handle [data] that was
    set, and only that; the offset that was set is kept in the request's
    private area. *)
Theorem set_data_then_get_data st io data offset :
  is_Some (ios st !! io) →
  ∃ st', myvolume_io_set_data io data offset st = Some (0, st') ∧
         myvolume_io_get_data io st' = Some (data, st') ∧
         (myvolume_io.offset ∘ ocf_io.priv) <$> ios st' !! io = Some offset.
Proof.
  intros [i Hi].
  unfold myvolume_io_set_data, myvolume_io_get_data, ocf_io_get_priv.
  munfold. rewrite Hi. simpl. rewrite Hi. eexists. split; [reflexivity|].
  simpl. rewrite lookup_insert_eq. done.
Qed.

Lemma set_data_then_get_data_witness :
  ∃ st', myvolume_io_set_data 10 100 4 st_opened = Some (0, st') ∧
         myvolume_io_get_data 10 st' = Some (100, st') ∧
         (myvolume_io.offset ∘ ocf_io.priv) <$> ios st' !! 10 = Some 4.
Proof.
  apply (set_data_then_get_data st_opened 10 100 4).
  exists (ocf_io.mk OCF_WRITE 4096 4 1 (myvolume_io.mk 100 0)). reflexivity.
Defined.

(** (C10, as stated) What [myvolume_io_get_data] returns does not
    determine the offset that was set: it is the same for two different
    offsets, so the bound pair cannot be retrieved from it. *)
Lemma get_data_returns_no_offset :
  ¬ ∃ offset_of : Z → Z, ∀ offset,
      ∃ st1 st2 r,
        myvolume_io_set_data 10 100 offset st_opened = Some (0, st1) ∧
        myvolume_io_get_data 10 st1 = Some (r, st2) ∧
        offset_of r = offset.
Proof.
  intros [g H].
  destruct (H 3) as (s1 & s2 & r & Hs & Hg & Hr).
  destruct (H 9) as (s1' & s2' & r' & Hs' & Hg' & Hr').
  vm_compute in Hs. injection Hs as <-.
  vm_compute in Hs'. injection Hs' as <-.
  vm_compute in Hg. injection Hg as <- _.
  vm_compute in Hg'. injection Hg' as <- _.
  congruence.
Qed.

(** ** Transfers and the data offset *)

Lemma pwrite_open o fd path f bs pos :
  Posix.descriptor o fd = Some (Posix.DFile path) →
  Posix.fs o !! path = Some f → 0 ≤ pos →
  Posix.pwrite fd bs pos o =
    (Z.of_nat (length bs),
     Posix.set (<[path := Posix.file_write f pos bs]> (Posix.fs o))
       (Posix.fds o) o).
Proof.
  intros Hfd Hf Hpos. unfold Posix.pwrite. rewrite Hfd, Hf.
  by rewrite decide_True.
Qed.

Lemma pread_open o fd path f n pos :
  Posix.descriptor o fd = Some (Posix.DFile path) →
  Posix.fs o !! path = Some f → 0 ≤ pos →
  Posix.pread fd n pos o =
    (Z.of_nat (length (Posix.file_read f pos n)), Posix.file_read f pos n).
Proof.
  intros Hfd Hf Hpos. unfold Posix.pread. rewrite Hfd, Hf.
  by rewrite decide_True.
Qed.

(** What a transfer on an open volume does, in full: a write replaces the
    backing file by [file_write f addr w], where [w] is the window of
    [io->bytes] bytes at [data->ptr + data->offset]; a read replaces the
    buffer by [store b data->offset (file_read f addr bytes)]. *)
Lemma submit_on_open_volume st io i v f d b :
  ios st !! io = Some i →
  volumes st !! ocf_io.volume i = Some v →
  myvolume.name (ocf_volume.priv v) = Some (ocf_volume.uuid v) →
  Posix.descriptor (os st) (backing_fd (ocf_volume.uuid v) st)
    = Some (Posix.DFile (backing_path (ocf_volume.uuid v))) →
  Posix.fs (os st) !! backing_path (ocf_volume.uuid v) = Some f →
  datas st !! myvolume_io.data (ocf_io.priv i) = Some d →
  bufs st !! volume_data.ptr d = Some b →
  0 ≤ ocf_io.addr i < 2 ^ 63 →
  is_Some (load b (volume_data.offset d) (ocf_io.bytes i)) →
  ∃ st', volume_submit_io io st = Some (tt, st') ∧
    volume_is_open st' (ocf_io.volume i) ∧
    volumes st' = volumes st ∧ ios st' = ios st ∧ datas st' = datas st ∧
    Posix.fds (os st') = Posix.fds (os st) ∧
    if decide (ocf_io.dir i = OCF_WRITE) then
      (∃ w, load b (volume_data.offset d) (ocf_io.bytes i) = Some w ∧
            Posix.fs (os st') =
              <[backing_path (ocf_volume.uuid v) :=
                  Posix.file_write f (ocf_io.addr i) w]> (Posix.fs (os st))) ∧
      bufs st' = bufs st
    else
      Posix.fs (os st') = Posix.fs (os st) ∧
      bufs st' =
        <[volume_data.ptr d :=
            store b (volume_data.offset d)
              (Posix.file_read f (ocf_io.addr i) (ocf_io.bytes i))]> (bufs st).
Proof.
  intros Hi Hv Hname Hfd Hf Hd Hb Haddr Hwin.
  destruct (decide (ocf_io.dir i = OCF_WRITE)) as [Hdir|Hdir].
  - destruct Hwin as [w Hw].
    rewrite (volume_submit_io_write st io i v _ d b Hi Hv Hname Hd Hb w Hdir Hw).
    rewrite (pwrite_open _ _ _ f) by (rewrite ?to_off_t_small by done; done || lia).
    rewrite to_off_t_small by done.
    eexists. split; [reflexivity|]. split.
    { exists v. eexists. simpl. rewrite lookup_insert_eq. done. }
    repeat (split; [done|]). split; [|done]. exists w. done.
  - rewrite (volume_submit_io_read st io i v _ d b Hi Hv Hname Hd Hb Hdir Hwin).
    rewrite (pread_open _ _ _ f) by (rewrite ?to_off_t_small by done; done || lia).
    rewrite to_off_t_small by done.
    eexists. split; [reflexivity|]. split.
    { exists v, f. done. }
    repeat (split; [done|]). done.
Qed.

(** The same for whatever file the descriptor variable of the volume's
    name refers to: the transfer goes through that descriptor, to the
    file [q] behind it. *)
Lemma submit_on_descriptor st io i v q f d b :
  ios st !! io = Some i →
  volumes st !! ocf_io.volume i = Some v →
  myvolume.name (ocf_volume.priv v) = Some (ocf_volume.uuid v) →
  Posix.descriptor (os st) (backing_fd (ocf_volume.uuid v) st)
    = Some (Posix.DFile q) →
  Posix.fs (os st) !! q = Some f →
  datas st !! myvolume_io.data (ocf_io.priv i) = Some d →
  bufs st !! volume_data.ptr d = Some b →
  0 ≤ ocf_io.addr i < 2 ^ 63 →
  is_Some (load b (volume_data.offset d) (ocf_io.bytes i)) →
  ∃ st', volume_submit_io io st = Some (tt, st') ∧
    if decide (ocf_io.dir i = OCF_WRITE) then
      (∃ w, load b (volume_data.offset d) (ocf_io.bytes i) = Some w ∧
            Posix.fs (os st') =
              <[q := Posix.file_write f (ocf_io.addr i) w]> (Posix.fs (os st))) ∧
      bufs st' = bufs st
    else
      Posix.fs (os st') = Posix.fs (os st) ∧
      bufs st' =
        <[volume_data.ptr d :=
            store b (volume_data.offset d)
              (Posix.file_read f (ocf_io.addr i) (ocf_io.bytes i))]> (bufs st).
Proof.
  intros Hi Hv Hname Hfd Hf Hd Hb Haddr Hwin.
  destruct (decide (ocf_io.dir i = OCF_WRITE)) as [Hdir|Hdir].
  - destruct Hwin as [w Hw].
    rewrite (volume_submit_io_write st io i v _ d b Hi Hv Hname Hd Hb w Hdir Hw).
    rewrite (pwrite_open _ _ q f) by (rewrite ?to_off_t_small by done; done || lia).
    rewrite to_off_t_small by done.
    eexists. split; [reflexivity|]. split; [|done]. exists w. done.
  - rewrite (volume_submit_io_read st io i v _ d b Hi Hv Hname Hd Hb Hdir Hwin).
    rewrite (pread_open _ _ q f) by (rewrite ?to_off_t_small by done; done || lia).
    rewrite to_off_t_small by done.
    eexists. split; [reflexivity|]. done.
Qed.

(** The state after [myvolume_io_set_data]: only the private area of the
    request has changed. *)
Lemma set_data_bound st io i data offset :
  ios st !! io = Some i →
  myvolume_io_set_data io data offset st =
    Some (0, set_ios (<[io := ocf_io.set_priv (myvolume_io.mk data offset) i]>
                        (ios st)) st) ∧
  ios (set_ios (<[io := ocf_io.set_priv (myvolume_io.mk data offset) i]>
                  (ios st)) st) !! io
    = Some (ocf_io.set_priv (myvolume_io.mk data offset) i).
Proof.
  intros Hi. unfold myvolume_io_set_data, ocf_io_get_priv. munfold.
  rewrite Hi. simpl. rewrite Hi. split; [done|]. simpl.
  apply lookup_insert_eq.
Qed.

(** (C7, as amended) The transfer of a read or write request begins at
    the [offset] field of the data object bound to the request
    ([data->offset]), not at byte 0 of the buffer: a write takes
    [io->bytes] bytes from the buffer at that offset, a read places the
    bytes of the file at [io->addr] into the buffer from that offset on.
    The offset passed to [myvolume_io_set_data] has no part in it. *)
Theorem transfer_starts_at_data_offset st io i data offset v f d b :
  ios st !! io = Some i →
  volume_is_open st (ocf_io.volume i) →
  volumes st !! ocf_io.volume i = Some v →
  backing_file st (ocf_volume.uuid v) = Some f →
  datas st !! data = Some d →
  bufs st !! volume_data.ptr d = Some b →
  0 ≤ ocf_io.addr i < 2 ^ 63 →
  is_Some (load b (volume_data.offset d) (ocf_io.bytes i)) →
  ∃ st1 st2,
    myvolume_io_set_data io data offset st = Some (0, st1) ∧
    volume_submit_io io st1 = Some (tt, st2) ∧
    if decide (ocf_io.dir i = OCF_WRITE) then
      (∃ w, load b (volume_data.offset d) (ocf_io.bytes i) = Some w ∧
            backing_file st2 (ocf_volume.uuid v)
              = Some (Posix.file_write f (ocf_io.addr i) w)) ∧
      bufs st2 = bufs st
    else
      backing_file st2 (ocf_volume.uuid v) = Some f ∧
      bufs st2 =
        <[volume_data.ptr d :=
            store b (volume_data.offset d)
              (Posix.file_read f (ocf_io.addr i) (ocf_io.bytes i))]> (bufs st).
Proof.
  intros Hi (v' & f' & Hv' & Hname & Hfd & Hf') Hv Hf Hd Hb Haddr Hwin.
  rewrite Hv in Hv'. injection Hv' as <-.
  unfold backing_file in Hf. rewrite Hf in Hf'. injection Hf' as <-.
  destruct (set_data_bound st io i data offset Hi) as (Hs1 & Hi1).
  set (st1 := set_ios _ st) in *.
  set (i1 := ocf_io.set_priv (myvolume_io.mk data offset) i) in *.
  destruct (submit_on_open_volume st1 io i1 v f d b)
    as (st2 & Hs2 & _ & _ & _ & _ & _ & Hres); try done.
  exists st1, st2. split; [done|]. split; [done|].
  unfold backing_file. cbn [ocf_io.dir ocf_io.addr ocf_io.bytes i1 ocf_io.set_priv] in Hres.
  destruct (decide (ocf_io.dir i = OCF_WRITE)).
  - destruct Hres as [(w & Hw & Hfs) Hbufs]. split; [|done].
    exists w. split; [done|]. rewrite Hfs. apply lookup_insert_eq.
  - destruct Hres as [Hfs Hbufs]. split; [|done]. by rewrite Hfs.
Qed.

Lemma transfer_starts_at_data_offset_witness :
  ∃ st1 st2,
    myvolume_io_set_data 10 100 4 st_opened = Some (0, st1) ∧
    volume_submit_io 10 st1 = Some (tt, st2) ∧
    (∃ w, load [Byte.x01; Byte.x02; Byte.x03; Byte.x04;
                Byte.x05; Byte.x06; Byte.x07; Byte.x08] 2 4 = Some w ∧
          backing_file st2 "cache"
            = Some (Posix.file_write (Posix.File VOL_SIZE ∅ true) 4096 w)) ∧
    bufs st2 = bufs st_opened.
Proof.
  apply (transfer_starts_at_data_offset st_opened 10
           (ocf_io.mk OCF_WRITE 4096 4 1 (myvolume_io.mk 100 0)) 100 4
           (ocf_volume.mk "cache" (myvolume.mk (Some "cache")))
           (Posix.File VOL_SIZE ∅ true)
           (volume_data.mk 1000 2)
           [Byte.x01; Byte.x02; Byte.x03; Byte.x04;
            Byte.x05; Byte.x06; Byte.x07; Byte.x08]);
    try reflexivity.
  - exact st_opened_is_open.
  - cbn. lia.
  - exists [Byte.x03; Byte.x04; Byte.x05; Byte.x06]. reflexivity.
Defined.

(** (C7, as stated) The write request is bound with offset 4 to a data
    object whose own offset is 2, over the buffer 01 02 ... 08. The bytes
    from offset 4 of the buffer are 05 06 07 08; the file receives
    03 04 05 06, the bytes from offset 2. The read request is bound with
    offset 2 to a data object whose own offset is 1, over a buffer of six
    ff; the four zero bytes read from the file land at index 1, not 2. *)
Lemma transfer_ignores_set_data_offset :
  (∃ st1 st2,
     myvolume_io_set_data 10 100 4 st_opened = Some (0, st1) ∧
     (myvolume_io.offset ∘ ocf_io.priv) <$> ios st1 !! 10 = Some 4 ∧
     volume_submit_io 10 st1 = Some (tt, st2) ∧
     (λ b, load b 4 4) <$> bufs st1 !! 1000
       = Some (Some [Byte.x05; Byte.x06; Byte.x07; Byte.x08]) ∧
     (λ f, Posix.file_read f 4096 4) <$> backing_file st2 "cache"
       = Some [Byte.x03; Byte.x04; Byte.x05; Byte.x06]) ∧
  (∃ st1 st2,
     myvolume_io_set_data 11 101 2 st_opened = Some (0, st1) ∧
     (myvolume_io.offset ∘ ocf_io.priv) <$> ios st1 !! 11 = Some 2 ∧
     volume_submit_io 11 st1 = Some (tt, st2) ∧
     bufs st2 !! 1001
       = Some [Byte.xff; Byte.x00; Byte.x00; Byte.x00; Byte.x00; Byte.xff]).
Proof.
  split.
  - exists st_bound, (after (volume_submit_io 10) st_bound).
    repeat split; reflexivity.
  - exists (after (myvolume_io_set_data 11 101 2) st_opened),
           (after (volume_submit_io 11)
              (after (myvolume_io_set_data 11 101 2) st_opened)).
    repeat split; reflexivity.
Qed.

(** ** Provisioning *)

(** With a backing file that is there but may not be opened, [volume_open]
    leaves the file system as it is. *)
Lemma volume_open_existing_fs st volume params v f :
  volumes st !! volume = Some v →
  Posix.fs (os st) !! backing_path (ocf_volume.uuid v) = Some f →
  ∃ st', volume_open volume params st = Some (0, st') ∧
         Posix.fs (os st') = Posix.fs (os st) ∧
         (Posix.f_rw f = true → volume_is_open st' volume).
Proof.
  intros Hv Hf. destruct (Posix.f_rw f) eqn:Hrw.
  - destruct (volume_open_attaches st volume params v f Hv Hf Hrw)
      as (st' & Hs & Hopen & Hfs & _).
    exists st'. done.
  - destruct (volume_open_fails st volume params v Hv) as (st' & Hs & _ & Hos).
    { unfold cannot_attach, backing_file. by rewrite Hf. }
    exists st'. rewrite Hos. done.
Qed.

(** (C5) [volume_open] provisions the backing file once. When the file
    is there, it is attached as it is: no file of the file system is
    truncated or altered, and the volume is open when the file may be
    opened read/write. When it is missing (and files may be created), it
    is created and extended to exactly [VOL_SIZE] = 200 MiB, and the
    volume is open. *)
Theorem volume_open_provisions_once st volume params v :
  volumes st !! volume = Some v →
  VOL_SIZE = 200 * 2 ^ 20 ∧
  ∃ st', volume_open volume params st = Some (0, st') ∧
    match backing_file st (ocf_volume.uuid v) with
    | Some f =>
        Posix.fs (os st') = Posix.fs (os st) ∧
        (Posix.f_rw f = true → volume_is_open st' volume)
    | None =>
        Posix.can_create (os st) = true →
        Posix.fs (os st') =
          <[backing_path (ocf_volume.uuid v) := Posix.File VOL_SIZE ∅ true]>
            (Posix.fs (os st)) ∧
        volume_is_open st' volume
    end.
Proof.
  intros Hv. split; [done|]. unfold backing_file.
  destruct (Posix.fs (os st) !! backing_path (ocf_volume.uuid v))
    as [f|] eqn:Hf.
  - apply (volume_open_existing_fs st volume params v f Hv Hf).
  - destruct (Posix.can_create (os st)) eqn:Hc.
    + destruct (volume_open_creates st volume params v Hv Hf Hc)
        as (st' & Hs & Hopen & Hfs & _).
      exists st'. done.
    + destruct (volume_open_state st volume params v Hv) as (fd & o & Hs & _).
      eexists. done.
Qed.

Lemma volume_open_provisions_once_witness :
  VOL_SIZE = 200 * 2 ^ 20 ∧
  ∃ st', volume_open 1 0 st_fresh = Some (0, st') ∧
    (Posix.can_create (os st_fresh) = true →
     Posix.fs (os st') =
       <["cache" := Posix.File VOL_SIZE ∅ true]> (Posix.fs (os st_fresh)) ∧
     volume_is_open st' 1).
Proof.
  apply (volume_open_provisions_once st_fresh 1 0
           (ocf_volume.mk "cache" (myvolume.mk None))).
  reflexivity.
Defined.

(** ** Which file a volume uses *)

(** [volume_open] touches no file but the one the name selects, and what
    it leaves in the descriptor variable is -1 or a descriptor of that
    file. *)
Lemma volume_open_selects st volume params v :
  volumes st !! volume = Some v →
  ∃ st', volume_open volume params st = Some (0, st') ∧
    (∀ q, q ≠ backing_path (ocf_volume.uuid v) →
          Posix.fs (os st') !! q = Posix.fs (os st) !! q) ∧
    (backing_fd (ocf_volume.uuid v) st' = -1 ∨
     Posix.descriptor (os st') (backing_fd (ocf_volume.uuid v) st')
       = Some (Posix.DFile (backing_path (ocf_volume.uuid v)))).
Proof.
  intros Hv.
  destruct (volume_open_state st volume params v Hv)
    as (fd & o & Hs & Hfs & _ & Hfd).
  eexists. split; [exact Hs|].
  replace (backing_fd (ocf_volume.uuid v) _) with fd
    by (unfold backing_fd, set_backing_fd; by case_decide).
  replace (os _) with o by (unfold set_backing_fd; by case_decide).
  done.
Qed.

(** (C8, as amended) [volume_open] operates on the file the identifier
    selects, the cache file for "cache" and the core file for every other
    identifier: it opens or creates that file and no other. A transfer
    operates on the file behind the descriptor variable the identifier
    selects ([cache_fd] for "cache", [core_fd] for every other
    identifier), whatever file [q] that descriptor refers to when the
    request is submitted. That is the file the identifier selects when
    the volume is open, that is, as long as the variable still holds a
    descriptor of that file. *)
Theorem volume_uses_the_file_its_name_selects st volume params v :
  volumes st !! volume = Some v →
  backing_path (ocf_volume.uuid v)
    = (if decide (ocf_volume.uuid v = "cache") then "cache" else "core") ∧
  backing_fd (ocf_volume.uuid v) st
    = (if decide (ocf_volume.uuid v = "cache") then cache_fd st
       else core_fd st) ∧
  (∃ st', volume_open volume params st = Some (0, st') ∧
     (∀ q, q ≠ backing_path (ocf_volume.uuid v) →
           Posix.fs (os st') !! q = Posix.fs (os st) !! q) ∧
     (backing_fd (ocf_volume.uuid v) st' = -1 ∨
      Posix.descriptor (os st') (backing_fd (ocf_volume.uuid v) st')
        = Some (Posix.DFile (backing_path (ocf_volume.uuid v))))) ∧
  (∀ io i d b q f,
     myvolume.name (ocf_volume.priv v) = Some (ocf_volume.uuid v) →
     Posix.descriptor (os st) (backing_fd (ocf_volume.uuid v) st)
       = Some (Posix.DFile q) →
     Posix.fs (os st) !! q = Some f →
     ios st !! io = Some i → ocf_io.volume i = volume →
     datas st !! myvolume_io.data (ocf_io.priv i) = Some d →
     bufs st !! volume_data.ptr d = Some b →
     0 ≤ ocf_io.addr i < 2 ^ 63 →
     is_Some (load b (volume_data.offset d) (ocf_io.bytes i)) →
     ∃ st',
       volume_submit_io io st = Some (tt, st') ∧
       if decide (ocf_io.dir i = OCF_WRITE) then
         (∃ w, load b (volume_data.offset d) (ocf_io.bytes i) = Some w ∧
               Posix.fs (os st') =
                 <[q := Posix.file_write f (ocf_io.addr i) w]>
                   (Posix.fs (os st))) ∧
         bufs st' = bufs st
       else
         Posix.fs (os st') = Posix.fs (os st) ∧
         bufs st' =
           <[volume_data.ptr d :=
               store b (volume_data.offset d)
                 (Posix.file_read f (ocf_io.addr i) (ocf_io.bytes i))]>
             (bufs st)) ∧
  (∀ io i d b,
     volume_is_open st volume →
     ios st !! io = Some i → ocf_io.volume i = volume →
     datas st !! myvolume_io.data (ocf_io.priv i) = Some d →
     bufs st !! volume_data.ptr d = Some b →
     0 ≤ ocf_io.addr i < 2 ^ 63 →
     is_Some (load b (volume_data.offset d) (ocf_io.bytes i)) →
     ∃ st' f,
       Posix.fs (os st) !! backing_path (ocf_volume.uuid v) = Some f ∧
       volume_submit_io io st = Some (tt, st') ∧
       volume_is_open st' volume ∧
       if decide (ocf_io.dir i = OCF_WRITE) then
         (∃ w, load b (volume_data.offset d) (ocf_io.bytes i) = Some w ∧
               Posix.fs (os st') =
                 <[backing_path (ocf_volume.uuid v) :=
                     Posix.file_write f (ocf_io.addr i) w]>
                   (Posix.fs (os st))) ∧
         bufs st' = bufs st
       else
         Posix.fs (os st') = Posix.fs (os st) ∧
         bufs st' =
           <[volume_data.ptr d :=
               store b (volume_data.offset d)
                 (Posix.file_read f (ocf_io.addr i) (ocf_io.bytes i))]>
             (bufs st)).
Proof.
  intros Hv. split; [done|]. split; [done|].
  split; [by apply volume_open_selects|]. split.
  - intros io i d b q f Hname Hfd Hf Hi Hvol Hd Hb Haddr Hwin. subst volume.
    by apply (submit_on_descriptor st io i v q f d b).
  - intros io i d b (v' & f & Hv' & Hname & Hfd & Hf) Hi Hvol Hd Hb Haddr Hwin.
    rewrite Hv in Hv'. injection Hv' as <-. subst volume.
    destruct (submit_on_open_volume st io i v f d b)
      as (st' & Hs & Hopen & _ & _ & _ & _ & Hres); try done.
    exists st', f. done.
Qed.

Lemma volume_uses_the_file_its_name_selects_witness :
  (∃ st',
     volume_submit_io 30 st_crossed = Some (tt, st') ∧
     (∃ w, load [Byte.x01; Byte.x02; Byte.x03; Byte.x04;
                 Byte.x05; Byte.x06; Byte.x07; Byte.x08] 2 4 = Some w ∧
           Posix.fs (os st') =
             <["cache" := Posix.file_write (Posix.File VOL_SIZE ∅ true) 0 w]>
               (Posix.fs (os st_crossed))) ∧
     bufs st' = bufs st_crossed) ∧
  (∃ st' f,
     Posix.fs (os st_opened) !! "cache" = Some f ∧
     volume_submit_io 10 st_opened = Some (tt, st') ∧
     volume_is_open st' 1 ∧
     (∃ w, load [Byte.x01; Byte.x02; Byte.x03; Byte.x04;
                 Byte.x05; Byte.x06; Byte.x07; Byte.x08] 2 4 = Some w ∧
           Posix.fs (os st') =
             <["cache" := Posix.file_write f 4096 w]> (Posix.fs (os st_opened))) ∧
     bufs st' = bufs st_opened).
Proof.
  split.
  - destruct (volume_uses_the_file_its_name_selects st_crossed 2 0
                (ocf_volume.mk "core" (myvolume.mk (Some "core"))) eq_refl)
      as (_ & _ & _ & Hio & _).
    apply (Hio 30 (ocf_io.mk OCF_WRITE 0 4 2 (myvolume_io.mk 100 0))
             (volume_data.mk 1000 2)
             [Byte.x01; Byte.x02; Byte.x03; Byte.x04;
              Byte.x05; Byte.x06; Byte.x07; Byte.x08]
             "cache" (Posix.File VOL_SIZE ∅ true));
      try reflexivity.
    + cbn. lia.
    + exists [Byte.x03; Byte.x04; Byte.x05; Byte.x06]. reflexivity.
  - destruct (volume_uses_the_file_its_name_selects st_opened 1 0
                (ocf_volume.mk "cache" (myvolume.mk (Some "cache"))) eq_refl)
      as (_ & _ & _ & _ & Hio).
    apply (Hio 10 (ocf_io.mk OCF_WRITE 4096 4 1 (myvolume_io.mk 100 0))
             (volume_data.mk 1000 2)
             [Byte.x01; Byte.x02; Byte.x03; Byte.x04;
              Byte.x05; Byte.x06; Byte.x07; Byte.x08]);
      try reflexivity.
    + exact st_opened_is_open.
    + cbn. lia.
    + exists [Byte.x03; Byte.x04; Byte.x05; Byte.x06]. reflexivity.
Defined.

(** (C8, as stated) Three volumes, "cache", "core" and "disk"; the calls
    open "core", open "disk", close "disk" and open "cache". The two
    volumes other than "cache" share [core_fd]: closing "disk" closes the
    descriptor that variable holds, and the open of "cache" is given the
    same descriptor number. [core_fd] and [cache_fd] then both hold a
    descriptor of the cache file, and a write submitted on the volume
    "core", which has not been closed, lands in the cache file; the core
    file is not written. *)
Lemma write_on_core_volume_lands_in_cache_file :
  ∃ st st',
    run crossing_calls st_three = Some (tt, st) ∧
    volumes st !! 2 = Some (ocf_volume.mk "core" (myvolume.mk (Some "core"))) ∧
    ios st !! 30 = Some (ocf_io.mk OCF_WRITE 0 4 2 (myvolume_io.mk 100 0)) ∧
    core_fd st = cache_fd st ∧
    Posix.descriptor (os st) (core_fd st) = Some (Posix.DFile "cache") ∧
    io_window st 30 = Some [Byte.x03; Byte.x04; Byte.x05; Byte.x06] ∧
    volume_range st 1 0 4 = Some [Byte.x00; Byte.x00; Byte.x00; Byte.x00] ∧
    volume_range st 2 0 4 = Some [Byte.x00; Byte.x00; Byte.x00; Byte.x00] ∧
    volume_submit_io 30 st = Some (tt, st') ∧
    volume_range st' 1 0 4 = Some [Byte.x03; Byte.x04; Byte.x05; Byte.x06] ∧
    volume_range st' 2 0 4 = Some [Byte.x00; Byte.x00; Byte.x00; Byte.x00] ∧
    backing_file st' "core" = backing_file st "core".
Proof.
  exists st_crossed, (after (volume_submit_io 30) st_crossed).
  repeat (apply conj; [vm_compute; reflexivity|]).
  vm_compute; reflexivity.
Qed.

(** * Further properties of the backend *)

(** ** Files: reads against writes *)

Lemma file_size_write f pos bs :
  bs ≠ [] →
  Posix.f_size (Posix.file_write f pos bs)
    = Z.max (Posix.f_size f) (pos + Z.of_nat (length bs)).
Proof. by destruct bs. Qed.

Lemma file_size_write_le f pos bs :
  Posix.f_size f ≤ Posix.f_size (Posix.file_write f pos bs).
Proof. destruct bs; simpl; lia. Qed.

Lemma file_data_write f pos bs k :
  Posix.f_data (Posix.file_write f pos bs) !! k =
    if decide (pos ≤ k < pos + Z.of_nat (length bs))
    then bs !! Z.to_nat (k - pos) else Posix.f_data f !! k.
Proof.
  destruct bs as [|b bs].
  - simpl. by rewrite decide_False by lia.
  - unfold Posix.file_write. cbn [Posix.f_data]. apply write_bytes_lookup.
Qed.

(** A write leaves every range it does not overlap as it reads, when the
    range lay inside the file. *)
Lemma file_read_write_disjoint f pos bs B M :
  B + M ≤ Posix.f_size f →
  B + M ≤ pos ∨ pos + Z.of_nat (length bs) ≤ B →
  Posix.file_read (Posix.file_write f pos bs) B M = Posix.file_read f B M.
Proof.
  intros Hin Hdis. unfold Posix.file_read.
  pose proof (file_size_write_le f pos bs) as Hle.
  replace (Z.max 0 (Z.min M (Posix.f_size (Posix.file_write f pos bs) - B)))
    with (Z.max 0 (Z.min M (Posix.f_size f - B))) by lia.
  apply list_fmap_ext. intros i k Hk. apply lookup_seqZ in Hk as [-> Hi].
  rewrite file_data_write. by rewrite decide_False by lia.
Qed.

(** A read of [n1 + n2] bytes inside the file is the read of the first
    [n1] followed by the read of the next [n2]. *)
Lemma file_read_app f pos n1 n2 :
  0 ≤ n1 → 0 ≤ n2 → pos + n1 + n2 ≤ Posix.f_size f →
  Posix.file_read f pos (n1 + n2)
    = Posix.file_read f pos n1 ++ Posix.file_read f (pos + n1) n2.
Proof.
  intros H1 H2 Hin. unfold Posix.file_read.
  replace (Z.max 0 (Z.min (n1 + n2) (Posix.f_size f - pos))) with (n1 + n2)
    by lia.
  replace (Z.max 0 (Z.min n1 (Posix.f_size f - pos))) with n1 by lia.
  replace (Z.max 0 (Z.min n2 (Posix.f_size f - (pos + n1)))) with n2 by lia.
  by rewrite seqZ_app, fmap_app by done.
Qed.


(** A read that starts at or after the end of the file is empty. *)
Lemma file_read_past_end f pos n :
  Posix.f_size f ≤ pos → Posix.file_read f pos n = [].
Proof.
  intros H. unfold Posix.file_read. by rewrite seqZ_nil by lia.
Qed.

Lemma file_read_0 f pos : Posix.file_read f pos 0 = [].
Proof. unfold Posix.file_read. by rewrite seqZ_nil by lia. Qed.

(** ** Byte regions *)

Lemma store_nil l off : store l off [] = l.
Proof. unfold store. simpl. rewrite Nat.add_0_r. apply take_drop. Qed.

(** After [bs] has been copied to the start of a window, the window holds
    [bs] followed by the bytes it had from there on. *)
Lemma load_store_prefix l off n w bs :
  load l off n = Some w →
  Z.of_nat (length bs) ≤ n →
  load (store l off bs) off n = Some (bs ++ drop (length bs) w).
Proof.
  unfold load. intros Hw Hlen. case_decide as Hin; [|done].
  injection Hw as <-.
  assert (length (store l off bs) = length l) as Hl
    by (apply length_store; lia).
  rewrite Hl. rewrite decide_True by done. f_equal. unfold store.
  rewrite drop_app_length' by (rewrite length_take; lia).
  rewrite take_app. rewrite take_ge by lia. f_equal. symmetry.
  replace (Z.to_nat n) with (length bs + (Z.to_nat n - length bs))%nat at 1
    by lia.
  by rewrite <- take_drop_commute, drop_drop.
Qed.

(** ** Transfers on an open volume, in full *)

Lemma transfer_write st io i v f d b w :
  transfer_ready st io i v f d b →
  ocf_io.dir i = OCF_WRITE →
  0 ≤ ocf_io.addr i < 2 ^ 63 →
  load b (volume_data.offset d) (ocf_io.bytes i) = Some w →
  volume_submit_io io st =
    Some (tt, completed io 0 (ocf_volume.uuid v) i
      (set_os (Posix.set (<[backing_path (ocf_volume.uuid v) :=
                      Posix.file_write f (ocf_io.addr i) w]>
                    (Posix.fs (os st))) (Posix.fds (os st)) (os st)) st)).
Proof.
  intros (Hi & Hv & Hname & Hfd & Hf & Hd & Hb & _) Hdir Haddr Hw.
  rewrite (volume_submit_io_write st io i v _ d b Hi Hv Hname Hd Hb w Hdir Hw).
  rewrite to_off_t_small by done.
  by rewrite (pwrite_open _ _ _ f) by (done || lia).
Qed.

Lemma transfer_read st io i v f d b :
  transfer_ready st io i v f d b →
  ocf_io.dir i ≠ OCF_WRITE →
  0 ≤ ocf_io.addr i < 2 ^ 63 →
  volume_submit_io io st =
    Some (tt, completed io 0 (ocf_volume.uuid v) i
      (set_bufs (<[volume_data.ptr d :=
                    store b (volume_data.offset d)
                      (Posix.file_read f (ocf_io.addr i) (ocf_io.bytes i))]>
                   (bufs st)) st)).
Proof.
  intros (Hi & Hv & Hname & Hfd & Hf & Hd & Hb & Hwin) Hdir Haddr.
  rewrite (volume_submit_io_read st io i v _ d b Hi Hv Hname Hd Hb Hdir Hwin).
  rewrite to_off_t_small by done.
  by rewrite (pread_open _ _ _ f) by (done || lia).
Qed.

Lemma io_window_eq st io i d b :
  ios st !! io = Some i →
  datas st !! myvolume_io.data (ocf_io.priv i) = Some d →
  bufs st !! volume_data.ptr d = Some b →
  io_window st io = load b (volume_data.offset d) (ocf_io.bytes i).
Proof.
  intros Hi Hd Hb. unfold io_window. rewrite Hi. simpl. rewrite Hd. simpl.
  by rewrite Hb.
Qed.

(** (X3) A write on an open volume changes the backing file in the range
    it names only: every range [B, B + M) inside the file that does not
    overlap [addr, addr + bytes) reads as before, and no other file
    changes. *)
Theorem write_leaves_other_ranges st io i v f d b B M :
  transfer_ready st io i v f d b →
  ocf_io.dir i = OCF_WRITE →
  0 ≤ ocf_io.addr i < 2 ^ 63 →
  B + M ≤ Posix.f_size f →
  B + M ≤ ocf_io.addr i ∨ ocf_io.addr i + ocf_io.bytes i ≤ B →
  ∃ st', volume_submit_io io st = Some (tt, st') ∧
    volume_range st' (ocf_io.volume i) B M
      = volume_range st (ocf_io.volume i) B M ∧
    ∀ q, q ≠ backing_path (ocf_volume.uuid v) →
         Posix.fs (os st') !! q = Posix.fs (os st) !! q.
Proof.
  intros Hready Hdir Haddr Hin Hdis.
  pose proof Hready as (Hi & Hv & Hname & Hfd & Hf & Hd & Hb & [w Hw]).
  rewrite (transfer_write st io i v f d b w Hready Hdir Haddr Hw).
  eexists. split; [reflexivity|]. split.
  - unfold volume_range, backing_file. simpl. rewrite Hv. simpl.
    rewrite lookup_insert_eq, Hf. simpl. f_equal.
    apply file_read_write_disjoint; [done|].
    apply load_length in Hw. lia.
  - intros q Hq. simpl. by rewrite lookup_insert_ne.
Qed.

(** (X4) The capacity is not enforced: a write of at least one byte that
    ends beyond the end of the backing file (and at or below
    [Posix.MAX_RW_COUNT], which is above the capacity) grows the file to
    [addr + bytes], also beyond what [volume_get_length] reports. *)
Theorem write_past_the_end_grows_the_file st io i v f d b :
  transfer_ready st io i v f d b →
  ocf_io.dir i = OCF_WRITE →
  0 ≤ ocf_io.addr i →
  ocf_io.addr i + ocf_io.bytes i ≤ Posix.MAX_RW_COUNT →
  0 < ocf_io.bytes i →
  Posix.f_size f < ocf_io.addr i + ocf_io.bytes i →
  ∃ st' f', volume_submit_io io st = Some (tt, st') ∧
    backing_file st' (ocf_volume.uuid v) = Some f' ∧
    Posix.f_size f' = ocf_io.addr i + ocf_io.bytes i ∧
    (volume_get_length (ocf_io.volume i) ≤ Posix.f_size f →
     volume_get_length (ocf_io.volume i) < Posix.f_size f').
Proof.
  intros Hready Hdir Ha Hmax Hpos Hend.
  assert (0 ≤ ocf_io.addr i < 2 ^ 63) as Haddr.
  { unfold Posix.MAX_RW_COUNT in Hmax. lia. }
  pose proof Hready as (Hi & Hv & Hname & Hfd & Hf & Hd & Hb & [w Hw]).
  rewrite (transfer_write st io i v f d b w Hready Hdir Haddr Hw).
  pose proof (load_length _ _ _ _ Hw) as Hlen.
  assert (w ≠ []) as Hne by (intros ->; simpl in Hlen; lia).
  eexists _, _. split; [reflexivity|]. split.
  - unfold backing_file. simpl. apply lookup_insert_eq.
  - rewrite file_size_write by done. lia.
Qed.

(** (X5) A read that reaches the end of the backing file is short: the
    window receives the bytes the file has from [addr] on, at its start,
    and keeps its own bytes after them; the request is completed with
    status 0 all the same. A read at or after the end of the file leaves
    the window as it was. *)
Theorem read_at_the_end_is_short st io i v f d b w :
  transfer_ready st io i v f d b →
  ocf_io.dir i ≠ OCF_WRITE →
  0 ≤ ocf_io.addr i < 2 ^ 63 →
  io_window st io = Some w →
  ∃ st', volume_submit_io io st = Some (tt, st') ∧
    io_window st' io =
      Some (Posix.file_read f (ocf_io.addr i) (ocf_io.bytes i)
            ++ drop (length (Posix.file_read f (ocf_io.addr i) (ocf_io.bytes i))) w) ∧
    (Posix.f_size f ≤ ocf_io.addr i → io_window st' io = Some w) ∧
    completions st' = completions st ++ [(io, 0)].
Proof.
  intros Hready Hdir Haddr Hw.
  pose proof Hready as (Hi & Hv & Hname & Hfd & Hf & Hd & Hb & Hwin).
  rewrite (io_window_eq st io i d b Hi Hd Hb) in Hw.
  rewrite (transfer_read st io i v f d b Hready Hdir Haddr).
  eexists. split; [reflexivity|].
  assert (0 ≤ ocf_io.bytes i) as Hn by (apply load_length in Hw; lia).
  set (st' := completed _ _ _ _ _).
  assert (io_window st' io =
            Some (Posix.file_read f (ocf_io.addr i) (ocf_io.bytes i)
                  ++ drop (length (Posix.file_read f (ocf_io.addr i)
                                     (ocf_io.bytes i))) w)) as Hres.
  { rewrite (io_window_eq st' io i d
               (store b (volume_data.offset d)
                  (Posix.file_read f (ocf_io.addr i) (ocf_io.bytes i))));
      [|done|done|subst st'; simpl; apply lookup_insert_eq].
    apply load_store_prefix; [done|]. by apply length_file_read. }
  split; [done|]. split; [|done].
  intros Hend. rewrite Hres. by rewrite file_read_past_end.
Qed.

Ltac ready_tac := repeat split; try reflexivity; eexists; reflexivity.

Lemma write_leaves_other_ranges_witness :
  ∃ st', volume_submit_io 10 st_edge = Some (tt, st') ∧
    volume_range st' 1 0 4096 = volume_range st_edge 1 0 4096 ∧
    ∀ q, q ≠ "cache" → Posix.fs (os st') !! q = Posix.fs (os st_edge) !! q.
Proof.
  apply (write_leaves_other_ranges st_edge 10
           (ocf_io.mk OCF_WRITE 4096 4 1 (myvolume_io.mk 100 0))
           (ocf_volume.mk "cache" (myvolume.mk (Some "cache")))
           (Posix.File VOL_SIZE ∅ true) (volume_data.mk 1000 2)
           [Byte.x01; Byte.x02; Byte.x03; Byte.x04;
            Byte.x05; Byte.x06; Byte.x07; Byte.x08] 0 4096).
  - ready_tac.
  - reflexivity.
  - cbn. lia.
  - cbn. unfold VOL_SIZE. lia.
  - left. cbn. lia.
Defined.

Lemma write_past_the_end_grows_the_file_witness :
  ∃ st' f', volume_submit_io 15 st_edge = Some (tt, st') ∧
    backing_file st' "cache" = Some f' ∧
    Posix.f_size f' = VOL_SIZE - 2 + 4 ∧
    (volume_get_length 1 ≤ VOL_SIZE → volume_get_length 1 < Posix.f_size f').
Proof.
  apply (write_past_the_end_grows_the_file st_edge 15
           (ocf_io.mk OCF_WRITE (VOL_SIZE - 2) 4 1 (myvolume_io.mk 100 0))
           (ocf_volume.mk "cache" (myvolume.mk (Some "cache")))
           (Posix.File VOL_SIZE ∅ true) (volume_data.mk 1000 2)
           [Byte.x01; Byte.x02; Byte.x03; Byte.x04;
            Byte.x05; Byte.x06; Byte.x07; Byte.x08]).
  - ready_tac.
  - reflexivity.
  - cbn. unfold VOL_SIZE. lia.
  - cbn. unfold VOL_SIZE, Posix.MAX_RW_COUNT. lia.
  - cbn. lia.
  - cbn. lia.
Defined.

Lemma read_at_the_end_is_short_witness :
  ∃ st', volume_submit_io 13 st_edge = Some (tt, st') ∧
    io_window st' 13 =
      Some (Posix.file_read (Posix.File VOL_SIZE ∅ true) VOL_SIZE 4
            ++ drop (length (Posix.file_read (Posix.File VOL_SIZE ∅ true)
                               VOL_SIZE 4))
                 [Byte.xff; Byte.xff; Byte.xff; Byte.xff]) ∧
    (VOL_SIZE ≤ VOL_SIZE →
     io_window st' 13 = Some [Byte.xff; Byte.xff; Byte.xff; Byte.xff]) ∧
    completions st' = completions st_edge ++ [(13, 0)].
Proof.
  apply (read_at_the_end_is_short st_edge 13
           (ocf_io.mk OCF_READ VOL_SIZE 4 1 (myvolume_io.mk 101 0))
           (ocf_volume.mk "cache" (myvolume.mk (Some "cache")))
           (Posix.File VOL_SIZE ∅ true) (volume_data.mk 1001 1)
           [Byte.xff; Byte.xff; Byte.xff; Byte.xff; Byte.xff; Byte.xff]
           [Byte.xff; Byte.xff; Byte.xff; Byte.xff]).
  - ready_tac.
  - cbn. unfold OCF_WRITE, OCF_READ. lia.
  - cbn. unfold VOL_SIZE. lia.
  - reflexivity.
Defined.

(** (X6) A request of no byte changes nothing: a write of length 0
    leaves the file system as it is (the file does not grow, wherever the
    address lies), a read of length 0 leaves the buffers as they are; the
    request is completed with status 0. *)
Theorem empty_request_changes_nothing st io i v f d b :
  transfer_ready st io i v f d b →
  ocf_io.bytes i = 0 →
  0 ≤ ocf_io.addr i < 2 ^ 63 →
  ∃ st', volume_submit_io io st = Some (tt, st') ∧
    Posix.fs (os st') = Posix.fs (os st) ∧
    bufs st' = bufs st ∧
    completions st' = completions st ++ [(io, 0)].
Proof.
  intros Hready Hn Haddr.
  pose proof Hready as (Hi & Hv & Hname & Hfd & Hf & Hd & Hb & [w Hw]).
  assert (w = []) as ->.
  { apply load_length in Hw. rewrite Hn in Hw. by destruct w. }
  destruct (decide (ocf_io.dir i = OCF_WRITE)) as [Hdir|Hdir].
  - rewrite (transfer_write st io i v f d b [] Hready Hdir Haddr Hw).
    eexists. split; [reflexivity|]. simpl. by rewrite insert_id.
  - rewrite (transfer_read st io i v f d b Hready Hdir Haddr).
    eexists. split; [reflexivity|]. simpl.
    rewrite Hn, file_read_0, store_nil. by rewrite insert_id.
Qed.

Lemma empty_request_changes_nothing_witness :
  ∃ st', volume_submit_io 14 st_edge = Some (tt, st') ∧
    Posix.fs (os st') = Posix.fs (os st_edge) ∧
    bufs st' = bufs st_edge ∧
    completions st' = completions st_edge ++ [(14, 0)].
Proof.
  apply (empty_request_changes_nothing st_edge 14
           (ocf_io.mk OCF_WRITE 0 0 1 (myvolume_io.mk 100 0))
           (ocf_volume.mk "cache" (myvolume.mk (Some "cache")))
           (Posix.File VOL_SIZE ∅ true) (volume_data.mk 1000 2)
           [Byte.x01; Byte.x02; Byte.x03; Byte.x04;
            Byte.x05; Byte.x06; Byte.x07; Byte.x08]).
  - ready_tac.
  - reflexivity.
  - cbn. lia.
Defined.

Lemma pwrite_negative fd bs pos o : pos < 0 → Posix.pwrite fd bs pos o = (-1, o).
Proof.
  intros H. unfold Posix.pwrite. repeat case_match; try done. lia.
Qed.

Lemma pread_negative fd n pos o : pos < 0 → Posix.pread fd n pos o = (-1, []).
Proof.
  intros H. unfold Posix.pread. repeat case_match; try done. lia.
Qed.

Lemma to_off_t_large a : 2 ^ 63 ≤ a < 2 ^ 64 → Posix.to_off_t a < 0.
Proof.
  intros H. unfold Posix.to_off_t. rewrite Z.mod_small by lia.
  rewrite decide_False by lia. lia.
Qed.

(** (X7) The address of a request is passed to [pread] and [pwrite] as a
    signed offset: a request whose address is 2^63 or more transfers
    nothing, on any volume, and is completed with status 0. *)
Theorem address_beyond_off_t_transfers_nothing st io i v name d b :
  ios st !! io = Some i →
  volumes st !! ocf_io.volume i = Some v →
  myvolume.name (ocf_volume.priv v) = Some name →
  datas st !! myvolume_io.data (ocf_io.priv i) = Some d →
  bufs st !! volume_data.ptr d = Some b →
  is_Some (load b (volume_data.offset d) (ocf_io.bytes i)) →
  2 ^ 63 ≤ ocf_io.addr i < 2 ^ 64 →
  ∃ st', volume_submit_io io st = Some (tt, st') ∧
    os st' = os st ∧ bufs st' = bufs st ∧
    completions st' = completions st ++ [(io, 0)].
Proof.
  intros Hi Hv Hname Hd Hb Hwin Haddr.
  pose proof (to_off_t_large _ Haddr) as Hneg.
  destruct (decide (ocf_io.dir i = OCF_WRITE)) as [Hdir|Hdir].
  - destruct Hwin as [w Hw].
    rewrite (volume_submit_io_write st io i v name d b Hi Hv Hname Hd Hb w Hdir Hw).
    rewrite pwrite_negative by done.
    eexists. split; [reflexivity|]. simpl. by destruct st.
  - rewrite (volume_submit_io_read st io i v name d b Hi Hv Hname Hd Hb Hdir Hwin).
    rewrite pread_negative by done.
    eexists. split; [reflexivity|]. simpl. rewrite store_nil.
    by rewrite insert_id.
Qed.

Lemma address_beyond_off_t_transfers_nothing_witness :
  ∃ st', volume_submit_io 12 st_edge = Some (tt, st') ∧
    os st' = os st_edge ∧ bufs st' = bufs st_edge ∧
    completions st' = completions st_edge ++ [(12, 0)].
Proof.
  apply (address_beyond_off_t_transfers_nothing st_edge 12
           (ocf_io.mk OCF_WRITE (2 ^ 63) 4 1 (myvolume_io.mk 100 0))
           (ocf_volume.mk "cache" (myvolume.mk (Some "cache"))) "cache"
           (volume_data.mk 1000 2)
           [Byte.x01; Byte.x02; Byte.x03; Byte.x04;
            Byte.x05; Byte.x06; Byte.x07; Byte.x08]);
    try reflexivity.
  - eexists. reflexivity.
  - cbn. lia.
Defined.

(** ** A volume that has just been created *)



(** (X1) [volume_get_length] reports 200 MiB for every volume. That is
    the size of a backing file [volume_open] has created and extended; a
    backing file that was there is attached as it is (the volume is open
    on it when it may be opened read/write) with the size it has, which
    is not made to agree with the reported length. *)
Theorem reported_length_and_file_size st volume params v :
  volumes st !! volume = Some v →
  volume_get_length volume = 209715200 ∧
  ∃ st', volume_open volume params st = Some (0, st') ∧
    match backing_file st (ocf_volume.uuid v) with
    | Some f =>
        backing_file st' (ocf_volume.uuid v) = Some f ∧
        (Posix.f_rw f = true → volume_is_open st' volume)
    | None =>
        Posix.can_create (os st) = true →
        volume_is_open st' volume ∧
        ∃ f', backing_file st' (ocf_volume.uuid v) = Some f' ∧
              Posix.f_size f' = volume_get_length volume
    end.
Proof.
  intros Hv. split; [done|]. unfold backing_file.
  destruct (Posix.fs (os st) !! backing_path (ocf_volume.uuid v))
    as [f|] eqn:Hf.
  - destruct (volume_open_existing_fs st volume params v f Hv Hf)
      as (st' & Hs & Hfs & Hopen).
    exists st'. split; [done|]. by rewrite Hfs.
  - destruct (Posix.can_create (os st)) eqn:Hc.
    + destruct (volume_open_creates st volume params v Hv Hf Hc)
        as (st' & Hs & Hopen & Hfs & _).
      exists st'. split; [done|]. intros _. split; [done|].
      eexists. rewrite Hfs.
      split; [apply lookup_insert_eq|done].
    + destruct (volume_open_state st volume params v Hv) as (fd & o & Hs & _).
      eexists. done.
Qed.

Lemma reported_length_and_file_size_witness :
  volume_get_length 1 = 209715200 ∧
  ∃ st', volume_open 1 0 st_existing = Some (0, st') ∧
    backing_file st' "cache" = Some (Posix.File 8192 ∅ true) ∧
    volume_is_open st' 1 ∧
    Posix.f_size (Posix.File 8192 ∅ true) ≠ volume_get_length 1.
Proof.
  destruct (reported_length_and_file_size st_existing 1 0
              (ocf_volume.mk "cache" (myvolume.mk None)) eq_refl)
    as (Hlen & st' & Hs & H).
  change (backing_file st' "cache" = Some (Posix.File 8192 ∅ true) ∧
          (true = true → volume_is_open st' 1)) in H.
  destruct H as [Hf Hopen].
  split; [exact Hlen|]. exists st'. split; [exact Hs|]. split; [exact Hf|].
  split; [exact (Hopen eq_refl)|]. intros H. discriminate H.
Defined.

(** ** Descriptors: closing, sharing, leaking *)

Lemma pwrite_closed fd bs pos o :
  Posix.descriptor o fd = None → Posix.pwrite fd bs pos o = (-1, o).
Proof. intros H. unfold Posix.pwrite. by rewrite H. Qed.

Lemma pread_closed fd n pos o :
  Posix.descriptor o fd = None → Posix.pread fd n pos o = (-1, []).
Proof. intros H. unfold Posix.pread. by rewrite H. Qed.

(** A request on a volume whose descriptor variable holds no open
    descriptor transfers nothing and is completed with status 0. *)
Lemma submit_without_descriptor st io i v name :
  ios st !! io = Some i →
  volumes st !! ocf_io.volume i = Some v →
  myvolume.name (ocf_volume.priv v) = Some name →
  Posix.descriptor (os st) (backing_fd name st) = None →
  is_Some (io_window st io) →
  ∃ st', volume_submit_io io st = Some (tt, st') ∧
    os st' = os st ∧ bufs st' = bufs st ∧
    completions st' = completions st ++ [(io, 0)].
Proof.
  intros Hi Hv Hname Hfd Hwin.
  unfold io_window in Hwin. rewrite Hi in Hwin. simpl in Hwin.
  destruct (datas st !! _) as [d|] eqn:Hd; [|by destruct Hwin].
  simpl in Hwin.
  destruct (bufs st !! _) as [b|] eqn:Hb; [|by destruct Hwin].
  simpl in Hwin.
  destruct (decide (ocf_io.dir i = OCF_WRITE)) as [Hdir|Hdir].
  - destruct Hwin as [w Hw].
    rewrite (volume_submit_io_write st io i v name d b Hi Hv Hname Hd Hb w Hdir Hw).
    rewrite pwrite_closed by done.
    eexists. split; [reflexivity|]. simpl. by destruct st.
  - rewrite (volume_submit_io_read st io i v name d b Hi Hv Hname Hd Hb Hdir Hwin).
    rewrite pread_closed by done.
    eexists. split; [reflexivity|]. simpl. rewrite store_nil.
    by rewrite insert_id.
Qed.

(** (X8) [volume_close] releases the descriptor and nothing else: the
    descriptor table loses the descriptor the variable of the volume
    holds and no other, the files keep their content and the descriptor
    variables their (now stale) values. The volume is no longer open, and
    in the state the close leaves a request submitted on it transfers
    nothing and is still completed with status 0. *)
Theorem after_close_requests_transfer_nothing st volume v :
  volumes st !! volume = Some v →
  volume_is_open st volume →
  ∃ st', volume_close volume st = Some (tt, st') ∧
    Posix.fds (os st') =
      delete (backing_fd (ocf_volume.uuid v) st) (Posix.fds (os st)) ∧
    ¬ volume_is_open st' volume ∧
    Posix.fs (os st') = Posix.fs (os st) ∧
    cache_fd st' = cache_fd st ∧ core_fd st' = core_fd st ∧
    ∀ io i,
      ios st' !! io = Some i → ocf_io.volume i = volume →
      is_Some (io_window st' io) →
      ∃ st'', volume_submit_io io st' = Some (tt, st'') ∧
        os st'' = os st' ∧ bufs st'' = bufs st' ∧
        completions st'' = completions st' ++ [(io, 0)].
Proof.
  intros Hv (v' & f & Hv' & Hname & Hfd & Hf).
  rewrite Hv in Hv'. injection Hv' as <-.
  rewrite (volume_close_state st volume v Hv Hname) by eauto.
  set (st' := set_os _ _).
  assert (Posix.descriptor (os st') (backing_fd (ocf_volume.uuid v) st') = None)
    as Hclosed.
  { subst st'. unfold backing_fd. case_decide; simpl; apply descriptor_closed. }
  exists st'. split; [done|]. split; [done|]. split.
  { intros (v' & f' & Hv' & _ & Hfd' & _).
    assert (v' = v) as -> by (subst st'; simpl in Hv'; congruence).
    by rewrite Hclosed in Hfd'. }
  repeat (split; [done|]).
  intros io i Hi Hvol Hwin.
  apply (submit_without_descriptor st' io i v (ocf_volume.uuid v)); try done.
  by rewrite Hvol.
Qed.

Lemma after_close_requests_transfer_nothing_witness :
  ∃ st', volume_close 1 st_opened = Some (tt, st') ∧
    Posix.fds (os st') =
      delete (backing_fd "cache" st_opened) (Posix.fds (os st_opened)) ∧
    ¬ volume_is_open st' 1 ∧
    Posix.fs (os st') = Posix.fs (os st_opened) ∧
    cache_fd st' = cache_fd st_opened ∧ core_fd st' = core_fd st_opened ∧
    ∀ io i,
      ios st' !! io = Some i → ocf_io.volume i = 1 →
      is_Some (io_window st' io) →
      ∃ st'', volume_submit_io io st' = Some (tt, st'') ∧
        os st'' = os st' ∧ bufs st'' = bufs st' ∧
        completions st'' = completions st' ++ [(io, 0)].
Proof.
  apply (after_close_requests_transfer_nothing st_opened 1
           (ocf_volume.mk "cache" (myvolume.mk (Some "cache")))).
  - reflexivity.
  - exact st_opened_is_open.
Defined.

(** (X9) All volumes whose identifier is not "cache" use one file and one
    descriptor variable. When one of them is open, every other one that
    has been opened before is open too, on the same file; and closing one
    of them closes the descriptor of all. *)
Theorem volumes_other_than_cache_share_a_descriptor st v1 v2 a b :
  volumes st !! v1 = Some a → volumes st !! v2 = Some b →
  ocf_volume.uuid a ≠ "cache" → ocf_volume.uuid b ≠ "cache" →
  myvolume.name (ocf_volume.priv b) = Some (ocf_volume.uuid b) →
  volume_is_open st v1 →
  volume_is_open st v2 ∧
  backing_file st (ocf_volume.uuid b) = backing_file st (ocf_volume.uuid a) ∧
  ∃ st', volume_close v1 st = Some (tt, st') ∧ ¬ volume_is_open st' v2.
Proof.
  intros Ha Hb Hna Hnb Hname (a' & f & Ha' & Hname' & Hfd & Hf).
  rewrite Ha in Ha'. injection Ha' as <-.
  assert (backing_path (ocf_volume.uuid b) = backing_path (ocf_volume.uuid a))
    as Hp.
  { unfold backing_path. by rewrite !decide_False. }
  assert (∀ s, backing_fd (ocf_volume.uuid b) s = backing_fd (ocf_volume.uuid a) s)
    as Hv.
  { intros s. unfold backing_fd. by rewrite !decide_False. }
  split; [|split].
  - exists b, f. by rewrite Hv, Hp.
  - unfold backing_file. by rewrite Hp.
  - rewrite (volume_close_state st v1 a Ha Hname') by eauto.
    eexists. split; [reflexivity|].
    intros (b' & f' & Hb' & _ & Hfd' & _). simpl in Hb'.
    rewrite Hb in Hb'. injection Hb' as <-.
    rewrite Hv in Hfd'. unfold backing_fd in Hfd'.
    rewrite !decide_False in Hfd' by done. simpl in Hfd'.
    by rewrite descriptor_closed in Hfd'.
Qed.

Lemma volumes_other_than_cache_share_a_descriptor_witness :
  volume_is_open st_cores 2 ∧
  backing_file st_cores "core" = backing_file st_cores "disk" ∧
  ∃ st', volume_close 3 st_cores = Some (tt, st') ∧ ¬ volume_is_open st' 2.
Proof.
  apply (volumes_other_than_cache_share_a_descriptor st_cores 3 2
           (ocf_volume.mk "disk" (myvolume.mk (Some "disk")))
           (ocf_volume.mk "core" (myvolume.mk (Some "core"))));
    try reflexivity.
  - intros H. discriminate H.
  - intros H. discriminate H.
  - exists (ocf_volume.mk "disk" (myvolume.mk (Some "disk"))),
           (Posix.File VOL_SIZE ∅ true).
    repeat split; reflexivity.
Defined.


Lemma os_opened name fd x s :
  os (set_stdout x (set_backing_fd name fd s)) = os s.
Proof. unfold set_backing_fd. by case_decide. Qed.

Lemma volumes_opened name fd x s :
  volumes (set_stdout x (set_backing_fd name fd s)) = volumes s.
Proof. unfold set_backing_fd. by case_decide. Qed.



Lemma backing_fd_opened_other n1 n2 fd x s :
  backing_path n1 ≠ backing_path n2 →
  backing_fd n1 (set_stdout x (set_backing_fd n2 fd s)) = backing_fd n1 s.
Proof.
  unfold backing_path, backing_fd, set_backing_fd.
  repeat case_decide; done.
Qed.

(** (X11) The cache volume and the volumes of the core file do not
    disturb each other: whatever [volume_open] does for a volume, a
    volume of the other file that is open stays open, on the same
    descriptor, and its backing file is left as it is. *)
Theorem opening_keeps_the_volumes_of_the_other_file st volume params v other w :
  volumes st !! volume = Some v →
  volumes st !! other = Some w →
  backing_path (ocf_volume.uuid w) ≠ backing_path (ocf_volume.uuid v) →
  volume_is_open st other →
  ∃ st', volume_open volume params st = Some (0, st') ∧
    volume_is_open st' other ∧
    backing_fd (ocf_volume.uuid w) st' = backing_fd (ocf_volume.uuid w) st ∧
    backing_file st' (ocf_volume.uuid w) = backing_file st (ocf_volume.uuid w).
Proof.
  intros Hv Hw Hp (w' & f & Hw' & Hname & Hfd & Hf).
  rewrite Hw in Hw'. injection Hw' as <-.
  assert (volume ≠ other) as Hne by (intros ->; congruence).
  destruct (volume_open_state st volume params v Hv)
    as (fd & o & Hs & Hfs & Hfds).
  eexists. split; [exact Hs|].
  split; [|split].
  - exists w, f. rewrite volumes_opened, os_opened.
    rewrite backing_fd_opened_other by done. simpl.
    rewrite lookup_insert_ne by done.
    repeat split; [done|done| |by rewrite Hfs].
    by apply Hfds.
  - by rewrite backing_fd_opened_other.
  - unfold backing_file. rewrite os_opened. simpl. by apply Hfs.
Qed.

Lemma opening_keeps_the_volumes_of_the_other_file_witness :
  ∃ st', volume_open 2 0 st_opened = Some (0, st') ∧
    volume_is_open st' 1 ∧
    backing_fd "cache" st' = backing_fd "cache" st_opened ∧
    backing_file st' "cache" = backing_file st_opened "cache".
Proof.
  apply (opening_keeps_the_volumes_of_the_other_file st_opened 2 0
           (ocf_volume.mk "core" (myvolume.mk None)) 1
           (ocf_volume.mk "cache" (myvolume.mk (Some "cache"))));
    try reflexivity.
  - intros H. discriminate H.
  - exact st_opened_is_open.
Defined.

(** ** Writes that follow each other *)

(** Two writes next to each other read back as one. *)
Lemma file_read_two_writes f pos w1 w2 :
  0 ≤ pos →
  Posix.file_read
    (Posix.file_write (Posix.file_write f pos w1)
       (pos + Z.of_nat (length w1)) w2)
    pos (Z.of_nat (length w1) + Z.of_nat (length w2))
  = w1 ++ w2.
Proof.
  intros Hpos. destruct (decide (w2 = [])) as [->|H2].
  { simpl. rewrite Z.add_0_r, app_nil_r. by apply file_read_write. }
  set (g := Posix.file_write f pos w1).
  rewrite file_read_app; [|lia|lia|rewrite file_size_write by done; lia].
  f_equal; [|apply file_read_write; lia].
  destruct (decide (w1 = [])) as [->|H1].
  { apply file_read_0. }
  rewrite file_read_write_disjoint.
  - by apply file_read_write.
  - subst g. rewrite file_size_write by done. lia.
  - left. lia.
Qed.

(** (X12) Writes compose: after a write of [w1] at [A] and a write of
    [w2] at [A + |w1|] on the same open volume, both inside the capacity,
    the backing file reads [w1 ++ w2] from [A] on. *)
Theorem adjacent_writes_read_as_one st io1 io2 i1 i2 v f d1 d2 b1 b2 w1 w2 :
  transfer_ready st io1 i1 v f d1 b1 →
  ios st !! io2 = Some i2 →
  ocf_io.volume i2 = ocf_io.volume i1 →
  datas st !! myvolume_io.data (ocf_io.priv i2) = Some d2 →
  bufs st !! volume_data.ptr d2 = Some b2 →
  ocf_io.dir i1 = OCF_WRITE → ocf_io.dir i2 = OCF_WRITE →
  0 ≤ ocf_io.addr i1 →
  ocf_io.addr i2 = ocf_io.addr i1 + ocf_io.bytes i1 →
  ocf_io.addr i2 + ocf_io.bytes i2 ≤ VOL_SIZE →
  load b1 (volume_data.offset d1) (ocf_io.bytes i1) = Some w1 →
  load b2 (volume_data.offset d2) (ocf_io.bytes i2) = Some w2 →
  ∃ st1 st2,
    volume_submit_io io1 st = Some (tt, st1) ∧
    volume_submit_io io2 st1 = Some (tt, st2) ∧
    volume_range st2 (ocf_io.volume i1) (ocf_io.addr i1)
      (ocf_io.bytes i1 + ocf_io.bytes i2) = Some (w1 ++ w2).
Proof.
  intros Hready Hi2 Hvol Hd2 Hb2 Hdir1 Hdir2 HA Hadj Hend Hw1 Hw2.
  unfold VOL_SIZE in Hend.
  pose proof Hready as (Hi1 & Hv & Hname & Hfd & Hf & Hd1 & Hb1 & _).
  pose proof (load_length _ _ _ _ Hw1) as Hn1.
  pose proof (load_length _ _ _ _ Hw2) as Hn2.
  assert (0 ≤ ocf_io.addr i1 < 2 ^ 63) as Ha1 by lia.
  assert (0 ≤ ocf_io.addr i2 < 2 ^ 63) as Ha2 by lia.
  pose proof (transfer_write st io1 i1 v f d1 b1 w1 Hready Hdir1 Ha1 Hw1)
    as Hs1.
  set (st1 := completed _ _ _ _ _) in Hs1.
  assert (transfer_ready st1 io2 i2 v
            (Posix.file_write f (ocf_io.addr i1) w1) d2 b2) as Hready2.
  { subst st1. repeat split; simpl; rewrite ?Hvol; try done.
    apply lookup_insert_eq. }
  pose proof (transfer_write st1 io2 i2 v _ d2 b2 w2 Hready2 Hdir2 Ha2 Hw2)
    as Hs2.
  set (st2 := completed _ _ _ _ _) in Hs2.
  exists st1, st2. split; [done|]. split; [done|].
  unfold volume_range, backing_file. subst st2 st1. simpl.
  rewrite Hv. simpl. rewrite lookup_insert_eq. simpl. f_equal.
  rewrite Hadj, <- Hn1, <- Hn2. by apply file_read_two_writes.
Qed.

Lemma adjacent_writes_read_as_one_witness :
  ∃ st1 st2,
    volume_submit_io 10 st_edge = Some (tt, st1) ∧
    volume_submit_io 17 st1 = Some (tt, st2) ∧
    volume_range st2 1 4096 (4 + 4)
      = Some ([Byte.x03; Byte.x04; Byte.x05; Byte.x06]
              ++ [Byte.xff; Byte.xff; Byte.xff; Byte.xff]).
Proof.
  apply (adjacent_writes_read_as_one st_edge 10 17
           (ocf_io.mk OCF_WRITE 4096 4 1 (myvolume_io.mk 100 0))
           (ocf_io.mk OCF_WRITE 4100 4 1 (myvolume_io.mk 101 0))
           (ocf_volume.mk "cache" (myvolume.mk (Some "cache")))
           (Posix.File VOL_SIZE ∅ true)
           (volume_data.mk 1000 2) (volume_data.mk 1001 1)
           [Byte.x01; Byte.x02; Byte.x03; Byte.x04;
            Byte.x05; Byte.x06; Byte.x07; Byte.x08]
           [Byte.xff; Byte.xff; Byte.xff; Byte.xff; Byte.xff; Byte.xff]);
    try reflexivity.
  - ready_tac.
  - cbn. lia.
  - cbn. unfold VOL_SIZE. lia.
Defined.

(** ** Direction codes *)

(** (X13) [volume_submit_io] writes exactly when the direction is
    [OCF_WRITE] and calls the request a read exactly when it is
    [OCF_READ]: a request with any other direction code is served as a
    read (the file is left alone, the window is filled from it) and
    reported as a write in the diagnostic line. *)
Theorem other_directions_are_read_and_logged_as_write st io i v f d b :
  transfer_ready st io i v f d b →
  ocf_io.dir i ≠ OCF_WRITE → ocf_io.dir i ≠ OCF_READ →
  0 ≤ ocf_io.addr i < 2 ^ 63 →
  ∃ st', volume_submit_io io st = Some (tt, st') ∧
    os st' = os st ∧
    bufs st' =
      <[volume_data.ptr d :=
          store b (volume_data.offset d)
            (Posix.file_read f (ocf_io.addr i) (ocf_io.bytes i))]> (bufs st) ∧
    stdout st' =
      stdout st ++
        [("VOL: (name: %s), IO: (dir: %s, addr: %ld, bytes: %d)\n",
          [PStr (ocf_volume.uuid v); PStr "write";
           PInt (ocf_io.addr i); PInt (ocf_io.bytes i)])].
Proof.
  intros Hready Hw Hr Haddr.
  rewrite (transfer_read st io i v f d b Hready Hw Haddr).
  eexists. split; [reflexivity|]. simpl. unfold io_message.
  by rewrite decide_False.
Qed.

Lemma other_directions_are_read_and_logged_as_write_witness :
  ∃ st', volume_submit_io 16 st_edge = Some (tt, st') ∧
    os st' = os st_edge ∧
    bufs st' =
      <[1001 :=
          store [Byte.xff; Byte.xff; Byte.xff; Byte.xff; Byte.xff; Byte.xff] 1
            (Posix.file_read (Posix.File VOL_SIZE ∅ true) 4096 4)]>
        (bufs st_edge) ∧
    stdout st' =
      stdout st_edge ++
        [("VOL: (name: %s), IO: (dir: %s, addr: %ld, bytes: %d)\n",
          [PStr "cache"; PStr "write"; PInt 4096; PInt 4])].
Proof.
  apply (other_directions_are_read_and_logged_as_write st_edge 16
           (ocf_io.mk 2 4096 4 1 (myvolume_io.mk 101 0))
           (ocf_volume.mk "cache" (myvolume.mk (Some "cache")))
           (Posix.File VOL_SIZE ∅ true) (volume_data.mk 1001 1)
           [Byte.xff; Byte.xff; Byte.xff; Byte.xff; Byte.xff; Byte.xff]).
  - ready_tac.
  - cbn. unfold OCF_WRITE. lia.
  - cbn. unfold OCF_READ. lia.
  - cbn. lia.
Defined.

(** ** The probe and the binding of data, once more *)

(** (X14) [need_reload_cache] changes nothing but its own flag: it opens,
    creates and writes no file, touches no descriptor, no request and no
    buffer, and prints nothing. A call that finds the flag set changes
    nothing at all. *)
Theorem need_reload_cache_only_sets_its_flag st :
  ∃ r st', need_reload_cache st = Some (r, st') ∧
    st' = set_need_reload (need_reload st') st ∧
    (need_reload st ≠ -1 → st' = st) ∧
    (need_reload st = -1 → need_reload st' = if r then 1 else 0).
Proof.
  destruct (decide (need_reload st = -1)) as [H|H].
  - rewrite (need_reload_cache_first st H).
    eexists _, _. split; [reflexivity|]. simpl. split; [done|].
    split; [done|]. intros _. by case_bool_decide.
  - rewrite (need_reload_cache_set st H).
    eexists _, _. split; [reflexivity|]. split; [by destruct st|]. done.
Qed.

(** (X15) Binding data to a request again replaces the binding: two calls
    of [myvolume_io_set_data] on a request leave the state the second
    call alone would leave; [myvolume_io_get_data] then returns the
    second handle, the direction, address, length and volume of the
    request are what they were, and no other request has changed. *)
Theorem set_data_again_replaces_the_binding st io i d1 o1 d2 o2 :
  ios st !! io = Some i →
  ∃ st1 st2 i2,
    myvolume_io_set_data io d1 o1 st = Some (0, st1) ∧
    myvolume_io_set_data io d2 o2 st1 = Some (0, st2) ∧
    myvolume_io_set_data io d2 o2 st = Some (0, st2) ∧
    myvolume_io_get_data io st2 = Some (d2, st2) ∧
    ios st2 !! io = Some i2 ∧
    ocf_io.dir i2 = ocf_io.dir i ∧ ocf_io.addr i2 = ocf_io.addr i ∧
    ocf_io.bytes i2 = ocf_io.bytes i ∧ ocf_io.volume i2 = ocf_io.volume i ∧
    ∀ io', io' ≠ io → ios st2 !! io' = ios st !! io'.
Proof.
  intros Hi.
  destruct (set_data_bound st io i d1 o1 Hi) as (Hs1 & Hi1).
  set (st1 := set_ios _ st) in *.
  destruct (set_data_bound st1 io _ d2 o2 Hi1) as (Hs2 & Hi2).
  destruct (set_data_bound st io i d2 o2 Hi) as (Hs & _).
  assert (set_ios (<[io := ocf_io.set_priv (myvolume_io.mk d2 o2)
                             (ocf_io.set_priv (myvolume_io.mk d1 o1) i)]>
                     (ios st1)) st1
          = set_ios (<[io := ocf_io.set_priv (myvolume_io.mk d2 o2) i]>
                       (ios st)) st) as E.
  { subst st1. unfold set_ios. simpl. by rewrite insert_insert_eq. }
  rewrite E in Hs2, Hi2.
  eexists _, _, _. split; [exact Hs1|]. split; [exact Hs2|].
  split; [exact Hs|]. split.
  { unfold myvolume_io_get_data, ocf_io_get_priv. munfold. simpl.
    by rewrite lookup_insert_eq. }
  split; [simpl; apply lookup_insert_eq|].
  repeat (split; [done|]).
  intros io' Hne. simpl. by rewrite lookup_insert_ne.
Qed.

Lemma set_data_again_replaces_the_binding_witness :
  ∃ st1 st2 i2,
    myvolume_io_set_data 10 101 7 st_opened = Some (0, st1) ∧
    myvolume_io_set_data 10 100 4 st1 = Some (0, st2) ∧
    myvolume_io_set_data 10 100 4 st_opened = Some (0, st2) ∧
    myvolume_io_get_data 10 st2 = Some (100, st2) ∧
    ios st2 !! 10 = Some i2 ∧
    ocf_io.dir i2 = OCF_WRITE ∧ ocf_io.addr i2 = 4096 ∧
    ocf_io.bytes i2 = 4 ∧ ocf_io.volume i2 = 1 ∧
    ∀ io', io' ≠ 10 → ios st2 !! io' = ios st_opened !! io'.
Proof.
  apply (set_data_again_replaces_the_binding st_opened 10
           (ocf_io.mk OCF_WRITE 4096 4 1 (myvolume_io.mk 100 0)) 101 7 100 4).
  reflexivity.
Defined.

(** ** The advertised maximum request size *)

(** (X16) [volume_get_max_io_size] advertises 128 KiB, and
    [volume_submit_io] does not hold requests to it: a write request
    longer than that, inside the capacity of the volume, is transferred
    whole, in one [pwrite]; afterwards the backing file reads, at the
    address of the request, all the bytes of its window. *)
Theorem requests_above_max_io_size_are_served_whole st io i v f d b w :
  transfer_ready st io i v f d b →
  ocf_io.dir i = OCF_WRITE →
  0 ≤ ocf_io.addr i →
  ocf_io.addr i + ocf_io.bytes i ≤ VOL_SIZE →
  volume_get_max_io_size (ocf_io.volume i) < ocf_io.bytes i →
  load b (volume_data.offset d) (ocf_io.bytes i) = Some w →
  volume_get_max_io_size (ocf_io.volume i) = 131072 ∧
  ∃ st', volume_submit_io io st = Some (tt, st') ∧
    volume_range st' (ocf_io.volume i) (ocf_io.addr i) (ocf_io.bytes i)
      = Some w ∧
    completions st' = completions st ++ [(io, 0)].
Proof.
  intros Hready Hdir Ha Hcap Hmax Hw. split; [done|].
  assert (0 ≤ ocf_io.addr i < 2 ^ 63) as Haddr.
  { unfold VOL_SIZE in Hcap. unfold volume_get_max_io_size in Hmax. lia. }
  pose proof Hready as (Hi & Hv & Hname & Hfd & Hf & Hd & Hb & _).
  rewrite (transfer_write st io i v f d b w Hready Hdir Haddr Hw).
  eexists. split; [reflexivity|]. split; [|done].
  unfold volume_range, backing_file. simpl. rewrite Hv. simpl.
  rewrite lookup_insert_eq. simpl. f_equal.
  rewrite <- (load_length _ _ _ _ Hw). apply file_read_write. lia.
Qed.

Lemma requests_above_max_io_size_are_served_whole_witness :
  volume_get_max_io_size 1 = 131072 ∧
  ∃ st', volume_submit_io 20 st_big = Some (tt, st') ∧
    volume_range st' 1 0 (128 * 1024 + 1)
      = Some (take (Z.to_nat (128 * 1024 + 1)) (drop (Z.to_nat 0) big_buffer)) ∧
    completions st' = completions st_big ++ [(20, 0)].
Proof.
  apply (requests_above_max_io_size_are_served_whole st_big 20
           (ocf_io.mk OCF_WRITE 0 (128 * 1024 + 1) 1 (myvolume_io.mk 200 0))
           (ocf_volume.mk "cache" (myvolume.mk (Some "cache")))
           (Posix.File VOL_SIZE ∅ true) (volume_data.mk 2000 0) big_buffer).
  - ready_tac.
  - reflexivity.
  - cbn. lia.
  - cbn. unfold VOL_SIZE. lia.
  - reflexivity.
  - reflexivity.
Defined.
